(** * project_assistent: reconciliation of 1C and Locman item lists

    A shallow embedding of [assistent_logic.py] (the reader, normalisation,
    the matcher [compare_files_1c_locman] and the converter) and of
    [assistent_db.py] (the mapping store backed by one SQLite table),
    followed by the properties of these functions.

    Python values are modelled as follows.
    - [str]: the list of its Unicode code points ([list N]).
    - a CSV cell: [option (list N)]; [csv.reader] only produces strings,
      the code nevertheless tests cells against [None], so [None] is kept.
    - [Dict[Tuple[str, str], Set[str]]]: [gmap (list N * list N) (gset (list N))].
    - the table [mappings]: the list of its rows, in insertion order,
      together with the AUTOINCREMENT counter. *)

From Stdlib Require Import NArith String Ascii.
From stdpp Require Import gmap list sorting.

Local Open Scope N_scope.

(** ** Python strings *)

Abbreviation pystr := (list N).
Abbreviation cell := (option (list N)).

(** An ASCII literal as a Python string. *)
Definition lit (s : string) : pystr :=
  map N_of_ascii (list_ascii_of_string s).

(** [Py_UNICODE_ISSPACE]: the characters that [str.split()] and
    [str.strip()] (called without argument) treat as whitespace. *)
Definition Py_UNICODE_ISSPACE (c : N) : bool :=
  ((9 <=? c) && (c <=? 13)) || ((28 <=? c) && (c <=? 32))
  || (c =? 133) || (c =? 160) || (c =? 5760)
  || ((8192 <=? c) && (c <=? 8202))
  || (c =? 8232) || (c =? 8233) || (c =? 8239) || (c =? 8287) || (c =? 12288).

(** [s.lstrip()], [s.rstrip()] and [s.strip()]. *)
Fixpoint py_lstrip (s : pystr) : pystr :=
  match s with
  | c :: s' => if Py_UNICODE_ISSPACE c then py_lstrip s' else s
  | [] => []
  end.

Definition py_rstrip (s : pystr) : pystr := reverse (py_lstrip (reverse s)).

Definition py_strip (s : pystr) : pystr := py_rstrip (py_lstrip s).

(** [s.split()]: the scan of [str.split] without separator. [cur] holds the
    characters of the word being read; a whitespace character closes it. *)
Fixpoint py_split_from (cur s : pystr) : list pystr :=
  match s with
  | [] => match cur with [] => [] | _ => [cur] end
  | c :: s' =>
      if Py_UNICODE_ISSPACE c
      then match cur with
           | [] => py_split_from [] s'
           | _ => cur :: py_split_from [] s'
           end
      else py_split_from (cur ++ [c]) s'
  end.

Definition py_split (s : pystr) : list pystr := py_split_from [] s.

(** [sep.join(ws)]. *)
Fixpoint py_join (sep : pystr) (ws : list pystr) : pystr :=
  match ws with
  | [] => []
  | [w] => w
  | w :: ws' => w ++ sep ++ py_join sep ws'
  end.

(** [sub in s] on strings: [sub] occurs in [s] at some offset. *)
Fixpoint py_startswith (s sub : pystr) {struct sub} : bool :=
  match sub, s with
  | [], _ => true
  | _ :: _, [] => false
  | a :: sub', b :: s' => (a =? b) && py_startswith s' sub'
  end.

Fixpoint py_in (sub s : pystr) : bool :=
  py_startswith s sub
  || match s with
     | [] => false
     | _ :: s' => py_in sub s'
     end.

(** [str(c)] for a cell. *)
Definition py_str (c : cell) : pystr :=
  match c with
  | Some s => s
  | None => lit "None"
  end.

(** Truth value of a string, and of a list. *)
Definition truthy (s : pystr) : bool :=
  match s with [] => false | _ => true end.

Definition truthy_list {A} (l : list A) : bool :=
  match l with [] => false | _ => true end.

(** [str.lower] restricted to the Basic Latin, Latin-1 and Cyrillic blocks,
    where it acts character by character; other characters are kept. *)
Definition lower_char (c : N) : N :=
  if (65 <=? c) && (c <=? 90) then c + 32
  else if (192 <=? c) && (c <=? 222) && negb (c =? 215) then c + 32
  else if (1024 <=? c) && (c <=? 1039) then c + 80
  else if (1040 <=? c) && (c <=? 1071) then c + 32
  else c.

Definition lower_basic (s : pystr) : pystr := map lower_char s.

(** [sub] is a substring of [s]. *)
Definition is_substring (sub s : pystr) : Prop :=
  exists l r, s = l ++ sub ++ r.

(** The words of a string, as the specification has them: the maximal runs
    of characters that are not whitespace. [g] is the whitespace before the
    first word [w]; what follows [w] is the end of the string or starts with
    a whitespace character. *)
Inductive splits_into : pystr -> list pystr -> Prop :=
| splits_blank (g : pystr) :
    Forall (fun c => Py_UNICODE_ISSPACE c) g -> splits_into g []
| splits_word (g w rest : pystr) (ws : list pystr) :
    Forall (fun c => Py_UNICODE_ISSPACE c) g ->
    w <> [] ->
    Forall (fun c => ¬ Py_UNICODE_ISSPACE c) w ->
    match rest with
    | [] => True
    | c :: _ => Py_UNICODE_ISSPACE c
    end ->
    splits_into rest ws ->
    splits_into (g ++ w ++ rest) (w :: ws).

Local Close Scope N_scope.

(** ** assistent_logic.py *)

(** The literal ["Куда входит"], by code point. *)
Definition marker : pystr :=
  [1050; 1091; 1076; 1072; 32; 1074; 1093; 1086; 1076; 1080; 1090]%N.

(** A Locman entry: [(name_loc, key_loc, loc_path)]. *)
Abbreviation loc_entry := (cell * list N * list N)%type.
(** A match: [(name_1c, name_loc, loc_path)]. *)
Abbreviation match_pair := (cell * cell * list N)%type.

(** The lists and the dictionary that the first pass of the matcher fills. *)
Record match_state := MatchState {
  matches : list match_pair;
  nomatches : list (cell * list N);
  locman_options : gmap (cell * list N) (list cell)
}.

Section Logic.

(** [str.lower]; the properties of the matcher hold whatever it computes. *)
Variable lower : pystr -> pystr.

(** The rows that [csv.reader(f, delimiter=";")] yields for the file at a
    path before the first failure (none when the file cannot be opened). *)
Variable csv_reader : pystr -> list (list cell).

(** [c is None or str(c).strip()] is the empty string. *)
Definition blank_cell (c : cell) : bool :=
  match c with
  | None => true
  | Some _ => negb (truthy (py_strip (py_str c)))
  end.

(** [read_csv_file_simple(path)]: the rows read, without the blank ones. *)
Definition read_csv_file_simple (path : pystr) : list (list cell) :=
  List.filter (fun r => negb (negb (truthy_list r) || forallb blank_cell r))
    (csv_reader path).

(** [normalize_string(s)]. *)
Definition normalize_string (s : cell) : pystr :=
  match s with
  | None => []
  | Some [] => []
  | Some s => py_join [32%N] (py_split (lower s))
  end.

(** [any("Куда входит" in str(cell) for cell in row if cell is not None)]. *)
Definition has_marker (row : list cell) : bool :=
  existsb (fun c => match c with
                    | None => false
                    | Some _ => py_in marker (py_str c)
                    end) row.

(** One iteration of [for row in data_loc[1:]]. *)
Definition locman_row_step (loc_path : pystr) (loc_entries : list loc_entry)
    (row : list cell) : list loc_entry :=
  if has_marker row then loc_entries
  else if length row <? 5 then loc_entries
  else match row !! 4 with
       | None => loc_entries
       | Some fifth_col =>
           if blank_cell fifth_col then loc_entries
           else if length row <? 2 then loc_entries
           else match row !! 1 with
                | None => loc_entries
                | Some name_loc =>
                    let key_loc := normalize_string name_loc in
                    if truthy key_loc
                    then loc_entries ++ [(name_loc, key_loc, loc_path)]
                    else loc_entries
                end
       end.

(** The loop [for loc_path in locman_csvs] that builds [loc_entries]. *)
Definition collect_loc_entries (locman_csvs : list pystr) : list loc_entry :=
  fold_left
    (fun loc_entries loc_path =>
       fold_left (locman_row_step loc_path)
         (tail (read_csv_file_simple loc_path)) loc_entries)
    locman_csvs [].

(** [key_loc in key_1c or key_1c in key_loc]. *)
Definition keys_match (key_loc key_1c : pystr) : bool :=
  py_in key_loc key_1c || py_in key_1c key_loc.

(** One iteration of [for row1 in data_1c[1:]] inside the first pass. *)
Definition match_row_step (e : loc_entry) (acc : match_state * bool)
    (row1 : list cell) : match_state * bool :=
  let '(name_loc, key_loc, loc_path) := e in
  let '(st, found) := acc in
  if length row1 <? 2 then acc
  else match row1 !! 1 with
       | None => acc
       | Some name_1c =>
           let key_1c := normalize_string name_1c in
           if negb (truthy key_1c) then acc
           else if keys_match key_loc key_1c
           then
             let loc_key := (name_loc, loc_path) in
             let opts := locman_options st !!! loc_key in
             (MatchState
                (matches st ++ [(name_1c, name_loc, loc_path)])
                (nomatches st)
                (if bool_decide (name_1c ∈ opts) then locman_options st
                 else <[loc_key := opts ++ [name_1c]]> (locman_options st)),
              true)
           else acc
       end.

(** One iteration of [for (name_loc, key_loc, loc_path) in loc_entries]. *)
Definition match_entry_step (data_1c : list (list cell)) (st : match_state)
    (e : loc_entry) : match_state :=
  let '(name_loc, key_loc, loc_path) := e in
  let loc_key := (name_loc, loc_path) in
  let st0 :=
    MatchState (matches st) (nomatches st)
      (if bool_decide (loc_key ∈ dom (locman_options st))
       then locman_options st
       else <[loc_key := []]> (locman_options st)) in
  let '(st1, found) := fold_left (match_row_step e) (tail data_1c) (st0, false) in
  if found then st1
  else MatchState (matches st1) (nomatches st1 ++ [(name_loc, loc_path)])
         (locman_options st1).

(** One iteration of the second pass over [data_1c[1:]]. *)
Definition nomatch_1c_step (loc_entries : list loc_entry)
    (nomatches_1c : list cell) (row1 : list cell) : list cell :=
  if length row1 <? 2 then nomatches_1c
  else match row1 !! 1 with
       | None => nomatches_1c
       | Some name_1c =>
           let key_1c := normalize_string name_1c in
           if negb (truthy key_1c) then nomatches_1c
           else
             let found_1c :=
               existsb (fun e : loc_entry => keys_match e.1.2 key_1c)
                 loc_entries in
             if found_1c then nomatches_1c else nomatches_1c ++ [name_1c]
       end.

(** [compare_files_1c_locman(file1_csv, locman_csvs)]. *)
Definition compare_files_1c_locman (file1_csv : pystr)
    (locman_csvs : list pystr)
  : list match_pair * list (cell * list N) * list cell
    * gmap (cell * list N) (list cell) :=
  let data_1c := read_csv_file_simple file1_csv in
  let loc_entries := collect_loc_entries locman_csvs in
  let st := fold_left (match_entry_step data_1c) loc_entries
              (MatchState [] [] ∅) in
  let nomatches_1c :=
    fold_left (nomatch_1c_step loc_entries) (tail data_1c) [] in
  (matches st, nomatches st, nomatches_1c, locman_options st).

(** *** Vocabulary of the specification *)

(** A Locman row that qualifies as an entry: at least 5 columns, a cell at
    index 4 that is neither [None] nor made of whitespace only, no cell
    containing the marker, and a display name (index 1) whose normalised
    form is not empty. *)
Definition promoted (row : list cell) : Prop :=
  5 ≤ length row
  ∧ (∃ c, row !! 4 = Some (Some c) ∧ ¬ Forall (fun x => Py_UNICODE_ISSPACE x) c)
  ∧ (∀ s, Some s ∈ row → ¬ is_substring marker s)
  ∧ (∃ name, row !! 1 = Some name ∧ normalize_string name ≠ []).

(** The display name of a 1C row that takes part in the comparison: the
    row has at least 2 columns and the normalised name is not empty. *)
Definition name_of_row1 (row1 : list cell) : option cell :=
  match row1 !! 1 with
  | Some name_1c =>
      if truthy (normalize_string name_1c) then Some name_1c else None
  | None => None
  end.

(** These names for the rows after the header, one per row, in order. *)
Definition names_1c (data_1c : list (list cell)) : list cell :=
  omap name_of_row1 (tail data_1c).

(** The matches of one Locman entry with the 1C names, in the order of
    the names. *)
Definition pairs_of (e : loc_entry) (names : list cell) : list match_pair :=
  map (fun n => (n, e.1.1, e.2))
    (List.filter (fun n => keys_match e.1.2 (normalize_string n)) names).

(** Symmetric containment of two keys. *)
Definition contains_either (a b : pystr) : Prop :=
  is_substring a b ∨ is_substring b a.

(** A row that the reader drops: every cell is [None] or made of
    whitespace only (an empty row is one). *)
Definition blank_row (r : list cell) : Prop :=
  ∀ c, c ∈ r → c = None ∨ ∃ s, c = Some s ∧ Forall (fun x => Py_UNICODE_ISSPACE x) s.

(** Whether a row is one of these can be decided cell by cell. *)
#[export] Instance blank_row_dec (r : list cell) : Decision (blank_row r).
Proof.
  assert (∀ c : cell,
    Decision (c = None
              ∨ ∃ s, c = Some s ∧ Forall (fun x => Py_UNICODE_ISSPACE x) s))
    as Hcell.
  { intros [s|].
    - destruct (decide (Forall (fun x => Is_true (Py_UNICODE_ISSPACE x)) s))
        as [Hs|Hs].
      + left. right. by exists s.
      + right. by intros [|(s' & [= <-] & Hs')].
    - left. by left. }
  destruct (decide (Forall (fun c : cell =>
      c = None ∨ ∃ s, c = Some s ∧ Forall (fun x => Py_UNICODE_ISSPACE x) s) r))
    as [Hr|Hr].
  - left. intros c Hc. by apply (proj1 (Forall_forall _ _) Hr).
  - right. intros Hb. by apply Hr, Forall_forall.
Defined.

(** The identity [(name_loc, loc_path)] of a Locman entry. *)
Definition identity_of (e : loc_entry) : cell * list N := (e.1.1, e.2).

(** The 1C names of the matches that carry an identity, in the order of the
    matches, and a list without the repetitions of its elements (the first
    occurrence of each is kept). *)
Definition names_matched (key : cell * list N) (ms : list match_pair)
  : list cell :=
  (fun m : match_pair => m.1.1)
    <$> filter (fun m : match_pair => (m.1.2, m.2) = key) ms.

Definition first_occurrences (l : list cell) : list cell :=
  reverse (remove_dups (reverse l)).

(** What the candidate dictionary holds while the first pass runs: for the
    identities [S] met so far, the 1C names matched to them; nothing else. *)
Definition options_inv (S : list (cell * list N)) (st : match_state) : Prop :=
  (∀ key, locman_options st !! key
          = if decide (key ∈ S)
            then Some (first_occurrences (names_matched key (matches st)))
            else None)
  ∧ (∀ m : match_pair, m ∈ matches st → (m.1.2, m.2) ∈ S).

End Logic.

(** *** The converter *)

(** [s.endswith(suffix)]. *)
Definition py_endswith (s suffix : pystr) : bool :=
  py_startswith (reverse s) (reverse suffix).

(** A cell as [csv.writer] writes it and [csv.reader] reads it back: [None]
    becomes the empty string. *)
Definition written_cell (c : cell) : cell := Some (default [] c).

Section Convert.

Variable lower : pystr -> pystr.

(** [load_workbook(filename=src, read_only=True, data_only=True)] and then
    [ws.iter_rows(values_only=True)] on the active sheet: the rows of the
    sheet, each value by its [str] form and [None] for an empty cell; a row
    is [None] where the iteration yields [None]. The result is [None] when
    the workbook cannot be opened. *)
Variable load_workbook : pystr -> option (list (option (list cell))).

(** [str(Path(path).with_suffix(".csv"))]. *)
Variable with_suffix_csv : pystr -> pystr.

(** Whether the block that writes the file at a path runs to its end. *)
Variable write_ok : pystr -> bool.

(** One iteration of [for row in ws.iter_rows(values_only=True)], on the
    rows passed to [writer.writerow] so far. *)
Definition convert_row_step (written : list (list cell))
    (row : option (list cell)) : list (list cell) :=
  match row with
  | None => written
  | Some row_list =>
      if forallb blank_cell row_list then written else written ++ [row_list]
  end.

(** [convert_xlsx_to_csv(path)]: the path returned and, when a file has
    been written to its end, the path of that file with the rows written.
    A file that a failure leaves half written is not described. *)
Definition convert_xlsx_to_csv (path : pystr)
  : pystr * option (pystr * list (list cell)) :=
  if negb (truthy path) || negb (py_endswith (lower path) (lit ".xlsx"))
  then (path, None)
  else
    let dst := with_suffix_csv path in
    match load_workbook path with
    | None => (path, None)
    | Some sheet =>
        if write_ok dst
        then (dst, Some (dst, fold_left convert_row_step sheet []))
        else (path, None)
    end.

End Convert.

(** *** Sample data *)

(** A workbook with a header, a blank row, a row with an empty cell and a
    row that the iteration yields as [None]; any other path cannot be
    opened. *)
Definition sample_workbook (path : pystr)
  : option (list (option (list cell))) :=
  if bool_decide (path = lit "Items.XLSX") then
    Some [ Some [Some (lit "code"); Some (lit "name")];
           Some [None; Some (lit "  ")];
           Some [Some (lit "1"); None];
           None ]
  else None.

(** The suffix replaced, for a path without directory. *)
Definition sample_with_suffix (path : pystr) : pystr :=
  if bool_decide (path = lit "Items.XLSX") then lit "Items.csv" else path.

(** What [csv.reader] yields for the file written from the sample
    workbook. *)
Definition sample_converted_csv (path : pystr) : list (list cell) :=
  if bool_decide (path = lit "Items.csv") then
    [ [Some (lit "code"); Some (lit "name")]; [Some (lit "1"); Some []] ]
  else [].

(** A 1C export and a Locman export: a header and three rows each. The
    last Locman row has a blank cell at index 4. *)
Definition sample_csv (path : pystr) : list (list cell) :=
  if bool_decide (path = lit "1c.csv") then
    [ [Some (lit "code"); Some (lit "name")];
      [Some (lit "1"); Some (lit "Bolt M6")];
      [Some (lit "2"); Some (lit "Nut")];
      [Some (lit "3")] ]
  else if bool_decide (path = lit "loc.csv") then
    [ [Some (lit "n"); Some (lit "name"); Some (lit "a"); Some (lit "b");
       Some (lit "c")];
      [Some (lit "1"); Some (lit "bolt"); Some []; Some []; Some (lit "y")];
      [Some (lit "2"); Some (lit "washer"); Some []; Some []; Some (lit "y")];
      [Some (lit "3"); Some (lit "nut"); Some []; Some []; Some (lit " ")] ]
  else [].

(** ** assistent_db.py *)

Module Db.

(** A Locman identity [(name_loc, loc_path)]. *)
Abbreviation identity := (list N * list N)%type.

(** A row of the table [mappings]. Timestamps are ISO 8601 texts. *)
Record mapping_row := MappingRow {
  row_id : N;
  name_loc : pystr;
  loc_path : pystr;
  name_1c : pystr;
  created_at : pystr;
  updated_at : pystr
}.

(** The table: its rows by insertion, and the AUTOINCREMENT counter kept in
    [sqlite_sequence] (the largest id handed out so far). *)
Record table := Table {
  rows : list mapping_row;
  sqlite_sequence : N
}.

(** The database file at [DB_PATH]: [None] when it does not exist. *)
Abbreviation store := (option table).

(** The exceptions of [sqlite3] that matter here: the violation of a
    constraint, and any other failure of the storage layer. *)
Inductive exn := IntegrityError | OperationalError.

(** A connection: the contents it sees ([db], with its uncommitted
    changes), the durable contents ([committed]), and how many statements
    still succeed before the storage layer fails ([None]: it never fails). *)
Record conn := Conn {
  db : table;
  committed : table;
  faults : option nat
}.

(** Computations on a connection that return a value or raise. *)
Definition M (A : Type) : Type := conn -> (A + exn) * conn.

Definition ret {A} (a : A) : M A := fun c => (inl a, c).

Definition raise {A} (e : exn) : M A := fun c => (inr e, c).

Definition bind {A B} (m : M A) (k : A -> M B) : M B :=
  fun c => match m c with
           | (inl a, c') => k a c'
           | (inr e, c') => (inr e, c')
           end.

#[export] Instance M_ret : MRet M := @ret.
#[export] Instance M_bind : MBind M := fun A B k m => bind m k.

(** [try: m except sqlite3.IntegrityError: h]. *)
Definition except_integrity {A} (m h : M A) : M A :=
  fun c => match m c with
           | (inr IntegrityError, c') => h c'
           | r => r
           end.

(** A [for] loop that updates a local variable; it stops at the first
    exception. *)
Fixpoint for_each {A B} (body : B -> A -> M B) (l : list A) (b : B) : M B :=
  match l with
  | [] => mret b
  | x :: l' => b' ← body b x; for_each body l' b'
  end.

(** [cursor.execute(...)]: the statement runs on the contents seen by the
    connection unless the storage layer fails; a statement that raises
    leaves the table as it was. *)
Definition execute {A} (stmt : table -> (A + exn) * table) : M A :=
  fun c => match faults c with
           | Some O => (inr OperationalError, c)
           | f => let '(r, t) := stmt (db c) in
                  (r, Conn t (committed c) (pred <$> f))
           end.

(** [conn.commit()], [conn.rollback()] and the contents left once the
    connection is closed. *)
Definition commit : M unit :=
  fun c => match faults c with
           | Some O => (inr OperationalError, c)
           | f => (inl tt, Conn (db c) (db c) (pred <$> f))
           end.

Definition rollback (c : conn) : conn :=
  Conn (committed c) (committed c) (faults c).

Definition close (c : conn) : store := Some (committed c).

(** [get_connection()] on an existing database. *)
Definition get_connection (t : table) (f : option nat) : conn := Conn t t f.

Definition same_identity (k : identity) (r : mapping_row) : bool :=
  bool_decide ((name_loc r, loc_path r) = k).

Definition same_triple (k : identity) (n : pystr) (r : mapping_row) : bool :=
  same_identity k r && bool_decide (name_1c r = n).

(** [DELETE FROM mappings WHERE name_loc = ? AND loc_path = ?]; the value is
    [cursor.rowcount]. *)
Definition sql_delete_identity (k : identity) (t : table)
  : (nat + exn) * table :=
  (inl (length (List.filter (same_identity k) (rows t))),
   Table (List.filter (fun r => negb (same_identity k r)) (rows t))
     (sqlite_sequence t)).

(** [DELETE FROM mappings]. *)
Definition sql_delete_all (t : table) : (nat + exn) * table :=
  (inl (length (rows t)), Table [] (sqlite_sequence t)).

(** [INSERT INTO mappings (name_loc, loc_path, name_1c, created_at,
    updated_at) VALUES (?, ?, ?, ?, ?)] under [UNIQUE(name_loc, loc_path,
    name_1c)]. *)
Definition sql_insert (k : identity) (n created updated : pystr) (t : table)
  : (unit + exn) * table :=
  if existsb (same_triple k n) (rows t) then (inr IntegrityError, t)
  else
    let i := N.succ (sqlite_sequence t) in
    (inl tt, Table (rows t ++ [MappingRow i k.1 k.2 n created updated]) i).

(** [UPDATE mappings SET updated_at = ? WHERE name_loc = ? AND loc_path = ?
    AND name_1c = ?]. *)
Definition sql_update_timestamp (updated : pystr) (k : identity) (n : pystr)
    (t : table) : (unit + exn) * table :=
  (inl tt,
   Table (map (fun r => if same_triple k n r
                        then MappingRow (row_id r) (name_loc r) (loc_path r)
                               (name_1c r) (created_at r) updated
                        else r) (rows t)) (sqlite_sequence t)).

(** [init_database()]: creates the table when it is absent. *)
Definition init_database (st : store) : table :=
  match st with
  | Some t => t
  | None => Table [] 0
  end.

(** The body of [for name_1c in name_1c_set]. *)
Definition save_name (current_time : pystr) (k : identity) (count : nat)
    (n : pystr) : M nat :=
  except_integrity
    (execute (sql_insert k n current_time current_time);; mret (S count))
    (execute (sql_update_timestamp current_time k n);; mret count).

(** The body of [for (name_loc, loc_path), name_1c_set in mappings.items()],
    on the names of the set in the order of iteration. *)
Definition save_identity (current_time : pystr) (count : nat)
    (item : identity * list pystr) : M nat :=
  execute (sql_delete_identity item.1);;
  for_each (save_name current_time item.1) item.2 count.

(** The [try] block of [save_mappings], on the items of the dictionary in
    the order of iteration. *)
Definition save_batch (current_time : pystr)
    (items : list (identity * list pystr)) : M nat :=
  count ← for_each (save_identity current_time) items 0;
  commit;; mret count.

(** [save_mappings(mappings)] at time [current_time], with the storage
    layer failing as [f] tells. The result pairs the value returned or the
    exception raised with the store left behind. *)
Definition save_mappings (current_time : pystr)
    (mappings : gmap identity (gset pystr)) (f : option nat) (st : store)
  : (nat + exn) * store :=
  let c := get_connection (init_database st) f in
  match save_batch current_time
          (map (fun kv : identity * gset pystr => (kv.1, elements kv.2))
             (map_to_list mappings)) c with
  | (inl count, c') => (inl count, close c')
  | (inr e, c') => (inr e, close (rollback c'))
  end.

(** Order of two texts in SQLite (code point by code point). *)
Fixpoint text_leb (a b : pystr) : bool :=
  match a, b with
  | [], _ => true
  | _ :: _, [] => false
  | x :: a', y :: b' => (x <? y)%N || ((x =? y)%N && text_leb a' b')
  end.

(** [ORDER BY updated_at DESC]. *)
Definition updated_desc (r1 r2 : mapping_row) : Prop :=
  text_leb (updated_at r2) (updated_at r1).

#[export] Instance updated_desc_dec : RelDecision updated_desc :=
  fun r1 r2 => Is_true_dec (text_leb (updated_at r2) (updated_at r1)).

Definition order_by_updated_at_desc (l : list mapping_row) : list mapping_row :=
  merge_sort updated_desc l.

(** The body of [for row in cursor.fetchall()] in [load_mappings]. *)
Definition load_row (mappings : gmap identity (gset pystr)) (r : mapping_row)
  : gmap identity (gset pystr) :=
  let key := (name_loc r, loc_path r) in
  let mappings' :=
    if bool_decide (key ∈ dom mappings) then mappings
    else <[key := ∅]> mappings in
  <[key := (mappings' !!! key) ∪ {[name_1c r]}]> mappings'.

(** [load_mappings()]. *)
Definition load_mappings (st : store) : gmap identity (gset pystr) :=
  match st with
  | None => ∅
  | Some t => fold_left load_row (order_by_updated_at_desc (rows t)) ∅
  end.

(** [get_mappings_for_locman(name_loc, loc_path)]. *)
Definition get_mappings_for_locman (name_loc loc_path : pystr) (st : store)
  : gset pystr :=
  match st with
  | None => ∅
  | Some t =>
      fold_left (fun result r => result ∪ {[name_1c r]})
        (List.filter (same_identity (name_loc, loc_path)) (rows t)) ∅
  end.

(** [delete_mappings(name_loc, loc_path)]; an argument left out is [None]. *)
Definition delete_mappings (name_loc loc_path : cell) (f : option nat)
    (st : store) : (nat + exn) * store :=
  match st with
  | None => (inl 0, None)
  | Some t =>
      let body :=
        count ←
          match name_loc, loc_path with
          | Some n, Some p =>
              if truthy n && truthy p
              then execute (sql_delete_identity (n, p))
              else execute sql_delete_all
          | _, _ => execute sql_delete_all
          end;
        commit;; mret count in
      let '(r, c') := body (get_connection t f) in
      (r, close c')
  end.

(** [get_all_mappings_count()]. *)
Definition get_all_mappings_count (st : store) : nat :=
  match st with
  | None => 0
  | Some t => length (rows t)
  end.

(** *** Vocabulary of the specification *)

(** The rows of the store; a database that does not exist has none. *)
Definition store_rows (st : store) : list mapping_row :=
  match st with
  | Some t => rows t
  | None => []
  end.

(** The rows recorded for an identity, and their 1C names, in table order. *)
Definition rows_of (k : identity) (l : list mapping_row) : list mapping_row :=
  List.filter (same_identity k) l.

Definition names_of (k : identity) (l : list mapping_row) : list pystr :=
  map name_1c (rows_of k l).

(** A computation that leaves the durable contents alone, and one that
    lets no exception but the failure of the storage layer escape. *)
Definition keeps_committed {A} (m : M A) : Prop :=
  ∀ c, committed (m c).2 = committed c.

Definition raises_only_operational {A} (m : M A) : Prop :=
  ∀ c e c', m c = (inr e, c') → e = OperationalError.

(** A deletion that removes the rows of the identity [(n, p)], keeps the
    other rows as they are, and returns how many rows it removed. *)
Definition deletes_exactly (n p : pystr) (st : store)
    (r : (nat + exn) * store) : Prop :=
  store_rows r.2
  = List.filter (fun x => negb (same_identity (n, p) x)) (store_rows st)
  ∧ r.1 = inl (length (rows_of (n, p) (store_rows st))).

(** A deletion that removes every row. *)
Definition deletes_all (st : store) (r : (nat + exn) * store) : Prop :=
  store_rows r.2 = [] ∧ r.1 = inl (length (store_rows st)).

(** The constraints of the table: [UNIQUE(name_loc, loc_path, name_1c)],
    the primary key, and AUTOINCREMENT (no id above the counter). *)
Definition triple_of (r : mapping_row) : list N * list N * list N :=
  (name_loc r, loc_path r, name_1c r).

Definition table_ok (t : table) : Prop :=
  NoDup (triple_of <$> rows t)
  ∧ NoDup (row_id <$> rows t)
  ∧ Forall (fun r => (row_id r <= sqlite_sequence t)%N) (rows t).

Definition store_ok (st : store) : Prop :=
  match st with
  | Some t => table_ok t
  | None => True
  end.

(** A computation whose result, when it is not the failure of the storage
    layer, is the one it has when the storage layer never fails. *)
Definition fault_insensitive {A} (m : M A) : Prop :=
  ∀ d cm f r c',
    m (Conn d cm f) = (r, c') → r ≠ inr OperationalError →
    m (Conn d cm None) = (r, Conn (db c') (committed c') None).

(** The number of names in a dictionary of mappings, all identities
    together. *)
Definition total_names (m : gmap identity (gset pystr)) : nat :=
  sum_list_with (fun kv : identity * gset pystr => size kv.2) (map_to_list m).

(** The number of steps of the batch of [save_mappings] at which the
    storage layer can fail: one [DELETE] per identity, one [INSERT] per
    name, and the commit. *)
Definition batch_statements (m : gmap identity (gset pystr)) : nat :=
  size m + total_names m + 1.

(** A computation that keeps these constraints, on the contents seen by
    the connection and on the durable ones. *)
Definition preserves_ok {A} (m : M A) : Prop :=
  ∀ c, table_ok (db c) → table_ok (committed c) →
       table_ok (db (m c).2) ∧ table_ok (committed (m c).2).

(** *** Sample data *)

Definition t0 : pystr := lit "2026-01-10T09:00:00".
Definition t1 : pystr := lit "2026-01-11T09:30:00".

Definition bolt_id : identity := (lit "bolt", lit "loc.csv").
Definition nut_id : identity := (lit "nut", lit "loc.csv").

(** Two names chosen for the bolt, none for the nut. *)
Definition sample_first : gmap identity (gset pystr) :=
  {[ bolt_id := {[ lit "Bolt M6"; lit "Bolt M8" ]}; nut_id := ∅ ]}.

(** A later choice for the bolt alone. *)
Definition sample_second : gmap identity (gset pystr) :=
  {[ bolt_id := {[ lit "Bolt M8"; lit "Bolt M10" ]} ]}.

(** A dictionary with one identity and no name chosen for it. *)
Definition sample_empty_choice : gmap identity (gset pystr) :=
  {[ bolt_id := ∅ ]}.

(** A store with one row whose name is the empty string and one row for
    the identity of the bolt. *)
Definition sample_store : store :=
  Some (Table [MappingRow 1 [] (lit "loc.csv") (lit "Washer") t0 t0;
               MappingRow 2 (lit "bolt") (lit "loc.csv") (lit "Bolt M6") t0 t0]
          2).

End Db.

(** * Properties *)

(** ** Strings *)

Lemma py_startswith_spec (s sub : pystr) :
  py_startswith s sub = true ↔ ∃ r, s = sub ++ r.
Proof.
  revert s. induction sub as [|a sub IH]; intros s; simpl.
  - split; [intros _; by exists s | by intros _].
  - destruct s as [|b s].
    + split; [done | intros [r Hr]; discriminate].
    + rewrite andb_true_iff, N.eqb_eq, IH. split.
      * intros [-> [r ->]]. by exists r.
      * intros [r Hr]. simplify_eq. eauto.
Qed.

(** [sub in s] holds exactly when [s] is [l ++ sub ++ r] for some [l], [r]. *)
Lemma py_in_spec (sub s : pystr) : py_in sub s = true ↔ is_substring sub s.
Proof.
  unfold is_substring. induction s as [|b s IH]; simpl.
  - rewrite orb_false_r, py_startswith_spec. split.
    + intros [r Hr]. by exists [], r.
    + intros (l & r & Hlr). symmetry in Hlr.
      apply app_eq_nil in Hlr as [-> Hlr]. apply app_eq_nil in Hlr as [-> ->].
      by exists [].
  - rewrite orb_true_iff, py_startswith_spec, IH. split.
    + intros [[r Hr] | (l & r & ->)].
      * by exists [], r.
      * by exists (b :: l), r.
    + intros (l & r & Hlr). destruct l as [|x l]; simpl in Hlr.
      * left. by exists r.
      * right. simplify_eq. by exists l, r.
Qed.

Lemma py_in_refl (s : pystr) : py_in s s = true.
Proof. apply py_in_spec. exists [], []. by rewrite app_nil_r. Qed.

Lemma truthy_true (s : pystr) : truthy s = true ↔ s ≠ [].
Proof. by destruct s. Qed.

Lemma py_lstrip_nil (s : pystr) :
  py_lstrip s = [] ↔ Forall (fun x => Py_UNICODE_ISSPACE x) s.
Proof.
  induction s as [|c s IH]; simpl; [by split|].
  destruct (Py_UNICODE_ISSPACE c) eqn:Hc.
  - rewrite IH, Forall_cons, Hc. split; [by split | by intros [_ ?]].
  - rewrite Forall_cons, Hc. split; [done | by intros [[] _]].
Qed.

Lemma py_lstrip_suffix (s : pystr) : ∃ l, s = l ++ py_lstrip s.
Proof.
  induction s as [|c s [l IH]]; simpl; [by exists []|].
  destruct (Py_UNICODE_ISSPACE c).
  - exists (c :: l). simpl. by f_equal.
  - by exists [].
Qed.

Lemma py_lstrip_idem (s : pystr) : py_lstrip (py_lstrip s) = py_lstrip s.
Proof.
  induction s as [|c s IH]; simpl; [done|].
  destruct (Py_UNICODE_ISSPACE c) eqn:Hc; [done|]. simpl. by rewrite Hc.
Qed.

(** [s.strip()] is empty exactly when [s] is made of whitespace only. *)
Lemma py_strip_nil (s : pystr) :
  py_strip s = [] ↔ Forall (fun x => Py_UNICODE_ISSPACE x) s.
Proof.
  unfold py_strip, py_rstrip. split.
  - intros H. apply (f_equal reverse) in H. rewrite reverse_involutive in H.
    change (reverse []) with (@nil N) in H.
    apply py_lstrip_nil in H. apply Forall_reverse in H.
    rewrite reverse_involutive in H.
    apply py_lstrip_nil. rewrite <- py_lstrip_idem. by apply py_lstrip_nil.
  - intros H. apply py_lstrip_nil in H. by rewrite H.
Qed.

(** *** Splitting into words *)

Lemma py_split_from_gap (g t : pystr) :
  Forall (fun c => Py_UNICODE_ISSPACE c) g →
  py_split_from [] (g ++ t) = py_split_from [] t.
Proof.
  induction 1 as [|c g Hc _ IH]; [done|]. simpl.
  by destruct (Py_UNICODE_ISSPACE c).
Qed.

Lemma py_split_from_word (w : pystr) : ∀ cur t,
  Forall (fun c => ¬ Py_UNICODE_ISSPACE c) w →
  py_split_from cur (w ++ t) = py_split_from (cur ++ w) t.
Proof.
  induction w as [|c w IH]; intros cur t Hw.
  - by rewrite app_nil_r.
  - apply Forall_cons in Hw as [Hc Hw]. simpl.
    destruct (Py_UNICODE_ISSPACE c); [by destruct Hc|].
    rewrite IH by done. by rewrite <- app_assoc.
Qed.

Lemma py_split_from_end (cur rest : pystr) :
  cur ≠ [] →
  match rest with [] => True | c :: _ => Py_UNICODE_ISSPACE c end →
  py_split_from cur rest = cur :: py_split_from [] rest.
Proof.
  intros Hcur Hrest. destruct cur as [|x cur]; [done|].
  destruct rest as [|c rest]; [done|]. simpl.
  by destruct (Py_UNICODE_ISSPACE c).
Qed.

(** The words of the specification are those that the scan returns. *)
Lemma splits_into_py_split (s : pystr) (ws : list pystr) :
  splits_into s ws → py_split s = ws.
Proof.
  unfold py_split. induction 1 as [g Hg|g w rest ws Hg Hw Hnw Hrest _ IH].
  - rewrite <- (app_nil_r g), py_split_from_gap by done. done.
  - rewrite py_split_from_gap, py_split_from_word by done. simpl.
    rewrite py_split_from_end by done. by rewrite IH.
Qed.

Lemma splits_into_space (c : N) (s : pystr) (ws : list pystr) :
  Py_UNICODE_ISSPACE c → splits_into s ws → splits_into (c :: s) ws.
Proof.
  intros Hc Hs. destruct Hs as [g Hg|g w rest ws Hg Hw Hnw Hrest Hs].
  - apply splits_blank. by constructor.
  - apply (splits_word (c :: g)); try done. by constructor.
Qed.

Lemma py_split_from_splits (s : pystr) :
  splits_into s (py_split_from [] s)
  ∧ ∀ cur, cur ≠ [] →
      ∃ w rest,
        s = w ++ rest
        ∧ Forall (fun c => ¬ Py_UNICODE_ISSPACE c) w
        ∧ match rest with [] => True | c :: _ => Py_UNICODE_ISSPACE c end
        ∧ py_split_from cur s = (cur ++ w) :: py_split_from [] rest
        ∧ splits_into rest (py_split_from [] rest).
Proof.
  induction s as [|c s [IH1 IH2]].
  - split; [by apply splits_blank|]. intros cur Hcur.
    exists [], []. destruct cur as [|x cur]; [done|].
    simpl. rewrite app_nil_r.
    split; [done|]. split; [done|]. split; [done|]. split; [done|].
    by apply splits_blank.
  - destruct (Py_UNICODE_ISSPACE c) eqn:Hc.
    + assert (splits_into (c :: s) (py_split_from [] (c :: s))) as Hsp.
      { simpl. rewrite Hc. apply splits_into_space; [by rewrite Hc | done]. }
      split; [done|]. intros cur Hcur. exists [], (c :: s).
      rewrite app_nil_r.
      split; [done|]. split; [done|]. split; [by rewrite Hc|].
      split; [|done]. simpl. rewrite Hc. by destruct cur.
    + assert (¬ Py_UNICODE_ISSPACE c) as Hnc by (rewrite Hc; intros []).
      split.
      * simpl. rewrite Hc.
        destruct (IH2 [c]) as (w & rest & -> & Hw & Hrest & -> & Hsp); [done|].
        apply (splits_word [] (c :: w) rest); try done. by constructor.
      * intros cur Hcur. simpl. rewrite Hc.
        destruct (IH2 (cur ++ [c])) as (w & rest & -> & Hw & Hrest & -> & Hsp).
        { by destruct cur. }
        exists (c :: w), rest. rewrite <- app_assoc.
        split; [done|]. split; [by constructor|]. by split.
Qed.

Lemma py_split_splits_into (s : pystr) : splits_into s (py_split s).
Proof. apply py_split_from_splits. Qed.

(** C8. [normalize_string] is a function of its argument alone, so it is
    deterministic and has no effect. For a missing or empty argument it
    returns the empty string. For any other string it returns the words of
    the lowercased argument (its maximal runs of characters that are not
    whitespace, which are determined by the string) joined by single
    spaces; and ["  A   b\tc "] gives ["a b c"]. *)
Theorem normalize_string_spec (lower : pystr → pystr) (c : N) (s : pystr) :
  normalize_string lower None = []
  ∧ normalize_string lower (Some []) = []
  ∧ (∃ ws,
       splits_into (lower (c :: s)) ws
       ∧ (∀ ws', splits_into (lower (c :: s)) ws' → ws' = ws)
       ∧ normalize_string lower (Some (c :: s)) = py_join [32%N] ws)
  ∧ normalize_string lower_basic (Some (lit "  A   b" ++ [9%N] ++ lit "c "))
    = lit "a b c".
Proof.
  split; [done|]. split; [done|]. split; [|by vm_compute].
  exists (py_split (lower (c :: s))). split; [|split].
  - apply py_split_splits_into.
  - intros ws' Hws'. symmetry. by apply splits_into_py_split.
  - done.
Qed.

(** ** Loops that only append *)

Lemma fold_left_append {A B} (f : list B → A → list B) (g : A → list B) :
  (∀ acc x, f acc x = acc ++ g x) →
  ∀ l acc, fold_left f l acc = acc ++ flat_map g l.
Proof.
  intros Hf l. induction l as [|x l IH]; intros acc; simpl.
  - by rewrite app_nil_r.
  - by rewrite IH, Hf, <- app_assoc.
Qed.

Lemma flat_map_option_list {A B} (f : A → option B) (l : list A) :
  flat_map (fun x => option_list (f x)) l = omap f l.
Proof.
  induction l as [|x l IH]; simpl; [done|].
  rewrite IH. by destruct (f x).
Qed.

Lemma flat_map_if_filter {A B} (g : A → B) (b : A → bool) (P : B → Prop)
    `{!∀ y, Decision (P y)} (l : list A) :
  (∀ x, x ∈ l → (b x = false ↔ P (g x))) →
  flat_map (fun x => if b x then [] else [g x]) l = filter P (g <$> l).
Proof.
  induction l as [|x l IH]; intros Hl; [done|].
  rewrite fmap_cons, filter_cons. simpl.
  rewrite IH by (intros y Hy; apply Hl; by right).
  pose proof (Hl x (list_elem_of_here x l)) as Hx.
  destruct (b x); destruct (decide (P (g x))) as [HP|HP]; try done.
  - by apply Hx in HP.
  - by destruct HP; apply Hx.
Qed.

(** ** The matcher *)

Section LogicFacts.

Variable lower : pystr -> pystr.
Variable csv_reader : pystr -> list (list cell).

Local Abbreviation norm := (normalize_string lower).
Local Abbreviation read := (read_csv_file_simple csv_reader).
Local Abbreviation row_step := (locman_row_step lower).
Local Abbreviation entries := (collect_loc_entries lower csv_reader).

Lemma short_row_lookup (row : list cell) i :
  (length row <? S i) = true → row !! i = None.
Proof. intros H%Nat.ltb_lt. apply lookup_ge_None. lia. Qed.

Lemma has_marker_false (row : list cell) :
  has_marker row = false ↔ ∀ s, Some s ∈ row → ¬ is_substring marker s.
Proof.
  unfold has_marker. rewrite <- not_true_iff_false, existsb_exists. split.
  - intros H s Hs Hin%py_in_spec. apply H.
    exists (Some s). split; [by apply list_elem_of_In | done].
  - intros H ([s|] & Hs & Hin); [|done].
    apply list_elem_of_In in Hs. simpl in Hin.
    by apply py_in_spec, (H s Hs) in Hin.
Qed.

Lemma blank_cell_false (c : cell) :
  blank_cell c = false
  ↔ ∃ s, c = Some s ∧ ¬ Forall (fun x => Py_UNICODE_ISSPACE x) s.
Proof.
  destruct c as [s|]; simpl.
  - rewrite negb_false_iff, truthy_true. split.
    + intros H. exists s. by rewrite <- py_strip_nil.
    + intros (? & [= <-] & H). by rewrite py_strip_nil.
  - split; [done | by intros (? & ? & _)].
Qed.

(** What one iteration over a Locman row adds, as a list of 0 or 1 entry. *)
Lemma locman_row_step_acc loc_path acc row :
  row_step loc_path acc row = acc ++ row_step loc_path [] row.
Proof.
  unfold locman_row_step.
  repeat (case_match; rewrite ?app_nil_r; try done).
Qed.

Lemma locman_row_step_promoted loc_path acc row :
  promoted lower row →
  ∃ name, row !! 1 = Some name
    ∧ row_step loc_path acc row = acc ++ [(name, norm name, loc_path)].
Proof.
  intros (Hlen & (c & Hc & Hws) & Hmark & (name & Hname & Hkey)).
  exists name. split; [done|]. unfold locman_row_step.
  rewrite (proj2 (has_marker_false row) Hmark).
  assert ((length row <? 5) = false) as -> by (apply Nat.ltb_ge; lia).
  assert ((length row <? 2) = false) as -> by (apply Nat.ltb_ge; lia).
  rewrite Hc, Hname.
  rewrite (proj2 (blank_cell_false (Some c))) by eauto.
  by rewrite (proj2 (truthy_true _) Hkey).
Qed.

Lemma locman_row_step_grows loc_path acc row e :
  row_step loc_path acc row = acc ++ [e] →
  promoted lower row
  ∧ ∃ name, row !! 1 = Some name ∧ e = (name, norm name, loc_path).
Proof.
  unfold locman_row_step, promoted. intros H.
  assert (∀ l : list loc_entry, l ≠ l ++ [e]) as Hne.
  { intros l Hl. apply (f_equal length) in Hl. rewrite length_app in Hl.
    simpl in Hl. lia. }
  destruct (has_marker row) eqn:Hm; [by apply Hne in H|].
  destruct (length row <? 5) eqn:H5; [by apply Hne in H|].
  destruct (row !! 4) as [fifth|] eqn:H4; [|by apply Hne in H].
  destruct (blank_cell fifth) eqn:Hb; [by apply Hne in H|].
  destruct (length row <? 2) eqn:H2; [by apply Hne in H|].
  destruct (row !! 1) as [name|] eqn:H1; [|by apply Hne in H].
  destruct (truthy (norm name)) eqn:Hk; [|by apply Hne in H].
  apply app_inv_head in H. injection H as <-.
  apply blank_cell_false in Hb as (c & -> & Hc).
  apply Nat.ltb_ge in H5. pose proof (proj1 (has_marker_false row) Hm).
  apply truthy_true in Hk.
  split; [|by exists name].
  split; [done|]. split; [by exists c|]. split; [done|]. by exists name.
Qed.

Lemma locman_row_step_at_most_one loc_path row :
  length (row_step loc_path [] row) ≤ 1.
Proof. unfold locman_row_step. repeat case_match; simpl; lia. Qed.

Lemma locman_row_step_not_promoted loc_path acc row :
  ¬ promoted lower row → row_step loc_path acc row = acc.
Proof.
  intros Hn. rewrite locman_row_step_acc.
  pose proof (locman_row_step_at_most_one loc_path row) as Hlen.
  destruct (row_step loc_path [] row) as [|e [|e' l]] eqn:H.
  - by rewrite app_nil_r.
  - destruct Hn. by apply (locman_row_step_grows loc_path [] row e).
  - simpl in Hlen. lia.
Qed.

(** The entries, source by source and row by row. *)
Lemma collect_loc_entries_flat_map locman_csvs :
  entries locman_csvs
  = flat_map (fun loc_path =>
                flat_map (row_step loc_path []) (tail (read loc_path)))
      locman_csvs.
Proof.
  unfold collect_loc_entries.
  rewrite (fold_left_append _
    (fun loc_path => flat_map (row_step loc_path []) (tail (read loc_path)))).
  - done.
  - intros acc loc_path.
    apply (fold_left_append _ (row_step loc_path [])).
    intros. apply locman_row_step_acc.
Qed.

Lemma elem_of_loc_entries locman_csvs (e : loc_entry) :
  e ∈ entries locman_csvs
  ↔ ∃ loc_path row name,
      loc_path ∈ locman_csvs ∧ row ∈ tail (read loc_path)
      ∧ promoted lower row ∧ row !! 1 = Some name
      ∧ e = (name, norm name, loc_path).
Proof.
  rewrite collect_loc_entries_flat_map, list_elem_of_In, in_flat_map. split.
  - intros (loc_path & Hp & Hin). apply in_flat_map in Hin as (row & Hrow & He).
    pose proof (locman_row_step_at_most_one loc_path row) as Hlen.
    destruct (row_step loc_path [] row) as [|e1 [|e2 l]] eqn:Hstep.
    + done.
    + destruct He as [<-|[]].
      apply (locman_row_step_grows loc_path [] row e1) in Hstep
        as (Hprom & name & Hname & ->).
      exists loc_path, row, name. by rewrite !list_elem_of_In.
    + simpl in Hlen. lia.
  - intros (loc_path & row & name & Hp & Hrow & Hprom & Hname & ->).
    exists loc_path. split; [by apply list_elem_of_In|].
    apply in_flat_map. exists row. split; [by apply list_elem_of_In|].
    destruct (locman_row_step_promoted loc_path [] row Hprom)
      as (name' & Hname' & ->).
    simplify_eq. by left.
Qed.

(** The key of an entry is the normalised form of its name, and it is not
    empty. *)
Lemma loc_entry_key locman_csvs name key loc_path :
  (name, key, loc_path) ∈ entries locman_csvs → key = norm name ∧ key ≠ [].
Proof.
  intros (p & row & name' & _ & _ & Hprom & Hname & [= -> -> ->])
    %elem_of_loc_entries.
  split; [done|].
  destruct Hprom as (_ & _ & _ & (n & Hn & Hkey)). by simplify_eq.
Qed.

(** *** First pass: matches and unmatched Locman entries *)

Lemma name_of_short_row1 (row1 : list cell) :
  (length row1 <? 2) = true → name_of_row1 lower row1 = None.
Proof. intros H. unfold name_of_row1. by rewrite short_row_lookup. Qed.

Lemma match_row_step_proj (e : loc_entry) (acc : match_state * bool) row1 :
  let names := option_list (name_of_row1 lower row1) in
  let r := match_row_step lower e acc row1 in
  matches r.1 = matches acc.1 ++ pairs_of lower e names
  ∧ nomatches r.1 = nomatches acc.1
  ∧ r.2 = acc.2 || existsb (fun n => keys_match e.1.2 (norm n)) names.
Proof.
  destruct e as [[name_loc key_loc] loc_path], acc as [st found].
  unfold match_row_step, pairs_of. simpl.
  destruct (length row1 <? 2) eqn:Hlen.
  { rewrite name_of_short_row1 by done. simpl.
    by rewrite app_nil_r, orb_false_r. }
  unfold name_of_row1. destruct (row1 !! 1) as [name_1c|]; simpl.
  2: by rewrite app_nil_r, orb_false_r.
  destruct (truthy (norm name_1c)); simpl.
  2: by rewrite app_nil_r, orb_false_r.
  destruct (keys_match key_loc (norm name_1c)); simpl.
  - by rewrite orb_true_r.
  - by rewrite app_nil_r, orb_false_r.
Qed.

Lemma pairs_of_app e (l1 l2 : list cell) :
  pairs_of lower e (l1 ++ l2) = pairs_of lower e l1 ++ pairs_of lower e l2.
Proof. unfold pairs_of. by rewrite List.filter_app, map_app. Qed.

Lemma omap_cons_option_list {A B} (f : A → option B) x (l : list A) :
  omap f (x :: l) = option_list (f x) ++ omap f l.
Proof. simpl. by destruct (f x). Qed.

Lemma match_rows_fold (e : loc_entry) rows (acc : match_state * bool) :
  let names := omap (name_of_row1 lower) rows in
  let r := fold_left (match_row_step lower e) rows acc in
  matches r.1 = matches acc.1 ++ pairs_of lower e names
  ∧ nomatches r.1 = nomatches acc.1
  ∧ r.2 = acc.2 || existsb (fun n => keys_match e.1.2 (norm n)) names.
Proof.
  revert acc. induction rows as [|row1 rows IH]; intros acc.
  - simpl. unfold pairs_of. simpl. by rewrite app_nil_r, orb_false_r.
  - cbv zeta. rewrite omap_cons_option_list.
    change (fold_left ?f (row1 :: rows) acc)
      with (fold_left f rows (f acc row1)).
    destruct (IH (match_row_step lower e acc row1)) as (-> & -> & ->).
    destruct (match_row_step_proj e acc row1) as (-> & -> & ->).
    by rewrite pairs_of_app, existsb_app, app_assoc, orb_assoc.
Qed.

Lemma match_entry_step_proj data_1c (st : match_state) (e : loc_entry) :
  let names := names_1c lower data_1c in
  let st' := match_entry_step lower data_1c st e in
  matches st' = matches st ++ pairs_of lower e names
  ∧ nomatches st'
    = nomatches st
      ++ (if existsb (fun n => keys_match e.1.2 (norm n)) names then []
          else [(e.1.1, e.2)]).
Proof.
  cbv zeta. unfold match_entry_step, names_1c.
  destruct e as [[name_loc key_loc] loc_path].
  match goal with
  | |- context [fold_left ?f ?l ?a] =>
      destruct (match_rows_fold (name_loc, key_loc, loc_path) l a)
        as (Hm & Hn & Hf);
      destruct (fold_left f l a) as [st1 found]
  end.
  simpl in Hm, Hn, Hf. subst found. simpl.
  destruct (existsb _ _); simpl; rewrite Hm, Hn; by rewrite ?app_nil_r.
Qed.

Lemma match_entries_fold data_1c es (st : match_state) :
  let names := names_1c lower data_1c in
  let st' := fold_left (match_entry_step lower data_1c) es st in
  matches st' = matches st ++ flat_map (fun e => pairs_of lower e names) es
  ∧ nomatches st'
    = nomatches st
      ++ flat_map
           (fun e : loc_entry =>
              if existsb (fun n => keys_match e.1.2 (norm n)) names then []
              else [(e.1.1, e.2)]) es.
Proof.
  revert st. induction es as [|e es IH]; intros st.
  - simpl. by rewrite !app_nil_r.
  - cbv zeta. simpl fold_left.
    destruct (IH (match_entry_step lower data_1c st e)) as (-> & ->).
    destruct (match_entry_step_proj data_1c st e) as (-> & ->).
    simpl. by rewrite <- !app_assoc.
Qed.

(** *** Second pass: unmatched 1C rows *)

Lemma nomatch_1c_step_acc (es : list loc_entry) acc row1 :
  nomatch_1c_step lower es acc row1
  = acc ++ match name_of_row1 lower row1 with
           | Some n =>
               if existsb (fun e : loc_entry => keys_match e.1.2 (norm n)) es
               then [] else [n]
           | None => []
           end.
Proof.
  unfold nomatch_1c_step.
  destruct (length row1 <? 2) eqn:Hlen.
  { rewrite name_of_short_row1 by done. by rewrite app_nil_r. }
  unfold name_of_row1. destruct (row1 !! 1) as [name_1c|]; simpl.
  2: by rewrite app_nil_r.
  destruct (truthy (norm name_1c)); simpl; [|by rewrite app_nil_r].
  destruct (existsb _ es); by rewrite ?app_nil_r.
Qed.

Lemma flat_map_omap {A B C} (f : A → option B) (g : B → list C) (l : list A) :
  flat_map (fun x => match f x with Some y => g y | None => [] end) l
  = flat_map g (omap f l).
Proof.
  induction l as [|x l IH]; simpl; [done|].
  rewrite IH. by destruct (f x).
Qed.

(** *** The four results *)

Lemma compare_matches file1_csv locman_csvs :
  (compare_files_1c_locman lower csv_reader file1_csv locman_csvs).1.1.1
  = flat_map (fun e => pairs_of lower e (names_1c lower (read file1_csv)))
      (entries locman_csvs).
Proof.
  unfold compare_files_1c_locman. simpl.
  by destruct (match_entries_fold (read file1_csv) (entries locman_csvs)
                 (MatchState [] [] ∅)) as (-> & _).
Qed.

Lemma compare_nomatches file1_csv locman_csvs :
  (compare_files_1c_locman lower csv_reader file1_csv locman_csvs).1.1.2
  = flat_map
      (fun e : loc_entry =>
         if existsb (fun n => keys_match e.1.2 (norm n))
              (names_1c lower (read file1_csv))
         then [] else [(e.1.1, e.2)])
      (entries locman_csvs).
Proof.
  unfold compare_files_1c_locman. simpl.
  by destruct (match_entries_fold (read file1_csv) (entries locman_csvs)
                 (MatchState [] [] ∅)) as (_ & ->).
Qed.

Lemma compare_nomatches_1c file1_csv locman_csvs :
  (compare_files_1c_locman lower csv_reader file1_csv locman_csvs).1.2
  = flat_map
      (fun n =>
         if existsb (fun e : loc_entry => keys_match e.1.2 (norm n))
              (entries locman_csvs)
         then [] else [n])
      (names_1c lower (read file1_csv)).
Proof.
  unfold compare_files_1c_locman, names_1c. simpl.
  rewrite (fold_left_append _ _ (nomatch_1c_step_acc (entries locman_csvs))).
  simpl. apply (flat_map_omap (name_of_row1 lower)).
Qed.

Lemma elem_of_pairs_of (e : loc_entry) names (m : match_pair) :
  m ∈ pairs_of lower e names
  ↔ ∃ n, n ∈ names ∧ keys_match e.1.2 (norm n) = true ∧ m = (n, e.1.1, e.2).
Proof.
  unfold pairs_of. rewrite list_elem_of_In, in_map_iff. split.
  - intros (n & <- & [Hn Hk]%filter_In). exists n.
    by rewrite list_elem_of_In.
  - intros (n & Hn & Hk & ->). exists n. split; [done|].
    apply filter_In. by rewrite <- list_elem_of_In.
Qed.

Lemma elem_of_matches file1_csv locman_csvs (m : match_pair) :
  m ∈ (compare_files_1c_locman lower csv_reader file1_csv locman_csvs).1.1.1
  ↔ ∃ (e : loc_entry) n,
      e ∈ entries locman_csvs ∧ n ∈ names_1c lower (read file1_csv)
      ∧ keys_match e.1.2 (norm n) = true ∧ m = (n, e.1.1, e.2).
Proof.
  rewrite compare_matches, list_elem_of_In, in_flat_map. split.
  - intros (e & He & (n & Hn & Hk & ->)%list_elem_of_In%elem_of_pairs_of).
    exists e, n. by rewrite list_elem_of_In.
  - intros (e & n & He & Hn & Hk & ->). exists e.
    split; [by apply list_elem_of_In|].
    apply list_elem_of_In, elem_of_pairs_of. by exists n.
Qed.

Lemma elem_of_names_1c data_1c (n : cell) :
  n ∈ names_1c lower data_1c
  ↔ ∃ row1, row1 ∈ tail data_1c ∧ row1 !! 1 = Some n ∧ norm n ≠ [].
Proof.
  unfold names_1c. rewrite list_elem_of_omap. split.
  - intros (row1 & Hrow & Hn). exists row1. split; [done|].
    unfold name_of_row1 in Hn. destruct (row1 !! 1) as [n'|]; [|done].
    destruct (truthy (norm n')) eqn:Hk; [|done].
    simplify_eq. by apply truthy_true in Hk.
  - intros (row1 & Hrow & Hn & Hk). exists row1. split; [done|].
    unfold name_of_row1. rewrite Hn.
    by rewrite (proj2 (truthy_true _) Hk).
Qed.

Lemma keys_match_true (a b : pystr) :
  keys_match a b = true ↔ contains_either a b.
Proof.
  unfold keys_match, contains_either. by rewrite orb_true_iff, !py_in_spec.
Qed.

(** C1. For a 1C data row with at least 2 columns and a non-empty key, and
    a Locman entry, the matcher records the MatchPair (1C name, Locman name,
    Locman path) exactly when one key is a substring of the other; this
    condition does not change when the two keys are swapped. *)
Theorem match_pair_iff_containment file1_csv locman_csvs
    (row1 : list cell) (name_1c name_loc : cell) (key_loc loc_path : pystr) :
  row1 ∈ tail (read file1_csv) →
  row1 !! 1 = Some name_1c →
  norm name_1c ≠ [] →
  (name_loc, key_loc, loc_path) ∈ entries locman_csvs →
  ((name_1c, name_loc, loc_path)
     ∈ (compare_files_1c_locman lower csv_reader file1_csv locman_csvs).1.1.1
   ↔ is_substring key_loc (norm name_1c) ∨ is_substring (norm name_1c) key_loc)
  ∧ (∀ a b : pystr, contains_either a b ↔ contains_either b a).
Proof.
  intros Hrow Hname Hkey He. split.
  - fold (contains_either key_loc (norm name_1c)).
    rewrite elem_of_matches, <- keys_match_true. split.
    + intros ([[name' key'] path'] & n & He' & Hn & Hk & [= -> -> ->]).
      simpl in Hk.
      apply loc_entry_key in He as [-> _]. by apply loc_entry_key in He' as [-> _].
    + intros Hk. exists (name_loc, key_loc, loc_path), name_1c.
      split; [done|]. split; [|done].
      apply elem_of_names_1c. by exists row1.
  - intros a b. unfold contains_either. tauto.
Qed.

(** C2. A Locman row after the header is promoted to an entry (the loop
    appends one entry for it, made of its cell at index 1, the normalised
    form of that cell and the path of the source) exactly when it has at
    least 5 columns, a non-blank cell at index 4, no cell containing the
    marker and a non-empty normalised name; the list of entries gathers
    what the rows after the header of every source give, in order. *)
Theorem locman_row_promoted_iff locman_csvs loc_path
    (loc_entries : list loc_entry) (row : list cell) :
  (promoted lower row
   ↔ ∃ e, row_step loc_path loc_entries row = loc_entries ++ [e])
  ∧ (∀ e, row_step loc_path loc_entries row = loc_entries ++ [e] →
          ∃ name, row !! 1 = Some name ∧ e = (name, norm name, loc_path))
  ∧ (¬ promoted lower row → row_step loc_path loc_entries row = loc_entries)
  ∧ entries locman_csvs
    = flat_map (fun p => flat_map (row_step p []) (tail (read p))) locman_csvs.
Proof.
  split; [split|split; [|split]].
  - intros Hp.
    destruct (locman_row_step_promoted loc_path loc_entries row Hp)
      as (name & _ & ->). eauto.
  - intros [e He]. by apply locman_row_step_grows in He as [? _].
  - intros e He. by apply locman_row_step_grows in He as [_ ?].
  - apply locman_row_step_not_promoted.
  - apply collect_loc_entries_flat_map.
Qed.

(** C3. The unmatched lists are the complements of the match set: the
    unmatched 1C names are the names of the 1C data rows (at least 2
    columns, non-empty key), one per row and in order, that are the 1C name
    of no MatchPair; the unmatched Locman list holds (name, path) of the
    entries, one per entry and in order, that no MatchPair carries. *)
Theorem unmatched_lists_complement file1_csv locman_csvs :
  let r := compare_files_1c_locman lower csv_reader file1_csv locman_csvs in
  r.1.2
  = filter (fun n => n ∉ (fun m : match_pair => m.1.1) <$> r.1.1.1)
      (names_1c lower (read file1_csv))
  ∧ r.1.1.2
    = filter
        (fun np => np ∉ (fun m : match_pair => (m.1.2, m.2)) <$> r.1.1.1)
        ((fun e : loc_entry => (e.1.1, e.2)) <$> entries locman_csvs).
Proof.
  cbv zeta. split.
  - rewrite compare_nomatches_1c.
    rewrite <- (list_fmap_id (names_1c lower (read file1_csv))) at 2.
    apply (flat_map_if_filter id). intros n Hn. unfold id.
    rewrite <- not_true_iff_false, existsb_exists, list_elem_of_fmap.
    apply not_iff_compat. split.
    + intros (e & He%list_elem_of_In & Hk).
      exists (n, e.1.1, e.2). split; [done|].
      apply elem_of_matches. by exists e, n.
    + intros (m & -> & (e & n' & He & Hn' & Hk & ->)%elem_of_matches).
      exists e. by rewrite <- list_elem_of_In.
  - rewrite compare_nomatches.
    apply (flat_map_if_filter (fun e : loc_entry => (e.1.1, e.2))).
    intros [[name_loc key_loc] loc_path] He. simpl.
    rewrite <- not_true_iff_false, existsb_exists, list_elem_of_fmap.
    apply not_iff_compat. split.
    + intros (n & Hn%list_elem_of_In & Hk).
      exists (n, name_loc, loc_path). split; [done|].
      apply elem_of_matches. by exists (name_loc, key_loc, loc_path), n.
    + intros (m & Heq & ([[name' key'] path'] & n & He' & Hn & Hk & ->)
                %elem_of_matches).
      simpl in *. injection Heq as -> ->.
      exists n. rewrite <- list_elem_of_In. split; [done|].
      apply loc_entry_key in He as [-> _].
      by apply loc_entry_key in He' as [-> _].
Qed.

End LogicFacts.

(** The sample files: the bolt matches, the washer has no 1C row, the nut
    is not an entry (blank cell at index 4), so the 1C row "Nut" is left. *)
Example compare_sample :
  (compare_files_1c_locman lower_basic sample_csv (lit "1c.csv")
     [lit "loc.csv"]).1
  = ([(Some (lit "Bolt M6"), Some (lit "bolt"), lit "loc.csv")],
     [(Some (lit "washer"), lit "loc.csv")],
     [Some (lit "Nut")]).
Proof. vm_compute. reflexivity. Qed.

Lemma match_pair_iff_containment_witness :
  let row1 := [Some (lit "1"); Some (lit "Bolt M6")] in
  let r := compare_files_1c_locman lower_basic sample_csv (lit "1c.csv")
             [lit "loc.csv"] in
  row1 ∈ tail (read_csv_file_simple sample_csv (lit "1c.csv"))
  ∧ (Some (lit "bolt"), lit "bolt", lit "loc.csv")
      ∈ collect_loc_entries lower_basic sample_csv [lit "loc.csv"]
  ∧ ((Some (lit "Bolt M6"), Some (lit "bolt"), lit "loc.csv") ∈ r.1.1.1
     ↔ is_substring (lit "bolt")
         (normalize_string lower_basic (Some (lit "Bolt M6")))
       ∨ is_substring (normalize_string lower_basic (Some (lit "Bolt M6")))
           (lit "bolt"))
  ∧ (∀ a b : pystr, contains_either a b ↔ contains_either b a).
Proof.
  assert ([Some (lit "1"); Some (lit "Bolt M6")]
            ∈ tail (read_csv_file_simple sample_csv (lit "1c.csv"))) as Hrow
    by (vm_compute; apply list_elem_of_here).
  assert ((Some (lit "bolt"), lit "bolt", lit "loc.csv")
            ∈ collect_loc_entries lower_basic sample_csv [lit "loc.csv"])
    as Hentry by (vm_compute; apply list_elem_of_here).
  split; [exact Hrow|]. split; [exact Hentry|].
  apply (match_pair_iff_containment lower_basic sample_csv (lit "1c.csv")
           [lit "loc.csv"] [Some (lit "1"); Some (lit "Bolt M6")]
           (Some (lit "Bolt M6")) (Some (lit "bolt")) (lit "bolt")
           (lit "loc.csv") Hrow).
  - reflexivity.
  - vm_compute. discriminate.
  - exact Hentry.
Defined.

(** ** More on normalisation and on the matcher *)

Lemma splits_into_words (s : pystr) (ws : list pystr) :
  splits_into s ws →
  Forall (fun w => w ≠ [] ∧ Forall (fun c => ¬ Py_UNICODE_ISSPACE c) w) ws.
Proof. induction 1; by constructor. Qed.

Lemma py_split_words (s : pystr) :
  Forall (fun w => w ≠ [] ∧ Forall (fun c => ¬ Py_UNICODE_ISSPACE c) w)
    (py_split s).
Proof. apply (splits_into_words s), py_split_splits_into. Qed.

Lemma py_split_nil (s : pystr) :
  py_split s = [] ↔ Forall (fun c => Py_UNICODE_ISSPACE c) s.
Proof.
  split.
  - intros H. pose proof (py_split_splits_into s) as Hs. rewrite H in Hs.
    by inversion Hs.
  - intros H. by apply splits_into_py_split, splits_blank.
Qed.

Lemma py_join_nil (sep : pystr) (ws : list pystr) :
  Forall (fun w => w ≠ []) ws → py_join sep ws = [] → ws = [].
Proof.
  intros Hws. destruct Hws as [|w ws Hw _]; [done|].
  destruct w as [|c w]; [done|]. by destruct ws.
Qed.

Lemma splits_into_py_join (ws : list pystr) :
  Forall (fun w => w ≠ [] ∧ Forall (fun c => ¬ Py_UNICODE_ISSPACE c) w) ws →
  splits_into (py_join [32%N] ws) ws.
Proof.
  induction 1 as [|w ws [Hw Hnw] Hws IH]; [by apply splits_blank|].
  destruct ws as [|w2 ws].
  - simpl. rewrite <- (app_nil_r w) at 1.
    apply (splits_word [] w []); try done; by apply splits_blank.
  - change (py_join [32%N] (w :: w2 :: ws))
      with ([] ++ w ++ (32%N :: py_join [32%N] (w2 :: ws))).
    apply splits_word; try done. by apply splits_into_space.
Qed.

Lemma py_join_last (ws : list pystr) :
  Forall (fun w => w ≠ [] ∧ Forall (fun c => ¬ Py_UNICODE_ISSPACE c) w) ws →
  ws ≠ [] →
  ∃ p c, py_join [32%N] ws = p ++ [c] ∧ ¬ Py_UNICODE_ISSPACE c.
Proof.
  induction 1 as [|w ws [Hw Hnw] Hws IH]; [done|]. intros _.
  destruct ws as [|w2 ws].
  - simpl. destruct (exists_last Hw) as (p & c & ->).
    exists p, c. split; [done|].
    apply Forall_app in Hnw as [_ Hc]. exact (Forall_inv Hc).
  - destruct IH as (p & c & Hp & Hc); [done|].
    exists (w ++ [32%N] ++ p), c. split; [|done].
    change (py_join [32%N] (w :: w2 :: ws))
      with (w ++ [32%N] ++ py_join [32%N] (w2 :: ws)).
    by rewrite Hp, <- !app_assoc.
Qed.

Lemma py_join_spaces (ws : list pystr) :
  Forall (fun w => w ≠ [] ∧ Forall (fun c => ¬ Py_UNICODE_ISSPACE c) w) ws →
  Forall (fun c => Py_UNICODE_ISSPACE c → c = 32%N) (py_join [32%N] ws).
Proof.
  induction 1 as [|w ws [Hw Hnw] Hws IH]; [by constructor|].
  assert (Forall (fun c => Py_UNICODE_ISSPACE c → c = 32%N) w) as Hw'.
  { eapply Forall_impl; [exact Hnw|]. intros c Hc Hsp. by destruct Hc. }
  destruct ws as [|w2 ws]; [done|].
  change (py_join [32%N] (w :: w2 :: ws))
    with (w ++ [32%N] ++ py_join [32%N] (w2 :: ws)).
  apply Forall_app. split; [done|]. by constructor.
Qed.

(** The result of [normalize_string] is made of words joined by spaces. *)
Lemma normalize_string_words (lower : pystr → pystr) (c : cell) :
  ∃ ws,
    Forall (fun w => w ≠ [] ∧ Forall (fun x => ¬ Py_UNICODE_ISSPACE x) w) ws
    ∧ normalize_string lower c = py_join [32%N] ws.
Proof.
  destruct c as [[|x s]|]; [by exists [] | | by exists []].
  exists (py_split (lower (x :: s))). split; [apply py_split_words | done].
Qed.

Lemma normalize_string_rejoin (lower : pystr → pystr) (c : cell) :
  py_join [32%N] (py_split (normalize_string lower c))
  = normalize_string lower c.
Proof.
  destruct (normalize_string_words lower c) as (ws & Hws & ->).
  by rewrite (splits_into_py_split _ ws (splits_into_py_join ws Hws)).
Qed.

(** X1. [normalize_string] returns the empty string exactly for [None],
    for the empty string and for the strings whose lowercased form is made
    of whitespace only. *)
Theorem normalize_string_empty_iff (lower : pystr → pystr) (c : cell) :
  normalize_string lower c = []
  ↔ c = None ∨ c = Some []
    ∨ ∃ s, c = Some s ∧ Forall (fun x => Py_UNICODE_ISSPACE x) (lower s).
Proof.
  destruct c as [[|x s]|]; [by split; auto | | by split; auto].
  simpl. split.
  - intros H. right; right. exists (x :: s). split; [done|].
    apply py_split_nil. apply (py_join_nil [32%N]); [|done].
    eapply Forall_impl; [apply py_split_words|]. by intros w [? _].
  - intros [|[|(s' & [= <-] & H)]]; try done.
    apply py_split_nil in H. by rewrite H.
Qed.

(** X2. The result of [normalize_string] is in canonical form: splitting
    it and joining the words with a space gives it back, it has no leading
    or trailing whitespace, and its only whitespace character is the
    space. *)
Theorem normalize_string_canonical (lower : pystr → pystr) (c : cell) :
  let r := normalize_string lower c in
  py_join [32%N] (py_split r) = r
  ∧ py_strip r = r
  ∧ Forall (fun x => Py_UNICODE_ISSPACE x → x = 32%N) r.
Proof.
  cbv zeta. split; [apply normalize_string_rejoin|].
  destruct (normalize_string_words lower c) as (ws & Hws & ->). split.
  - destruct ws as [|w ws]; [done|].
    assert (py_lstrip (py_join [32%N] (w :: ws)) = py_join [32%N] (w :: ws))
      as Hl.
    { apply Forall_cons in Hws as [[Hw Hnw] _].
      destruct w as [|x w]; [done|]. apply Forall_cons in Hnw as [Hx _].
      destruct ws; simpl; by destruct (Py_UNICODE_ISSPACE x). }
    unfold py_strip, py_rstrip. rewrite Hl.
    destruct (py_join_last (w :: ws) Hws) as (p & x & -> & Hx); [done|].
    rewrite reverse_app. simpl.
    destruct (Py_UNICODE_ISSPACE x); [by destruct Hx|].
    by rewrite reverse_cons, reverse_involutive.
  - by apply py_join_spaces.
Qed.

(** X3. [normalize_string] is idempotent on a result that lowercasing
    leaves as it is. *)
Theorem normalize_string_idempotent (lower : pystr → pystr) (c : cell) :
  lower (normalize_string lower c) = normalize_string lower c →
  normalize_string lower (Some (normalize_string lower c))
  = normalize_string lower c.
Proof.
  intros Hlow. pose proof (normalize_string_rejoin lower c) as Hjoin.
  destruct (normalize_string lower c) as [|x r] eqn:Hr; [done|].
  simpl. by rewrite Hlow.
Qed.

Lemma normalize_string_idempotent_witness :
  lower_basic (normalize_string lower_basic (Some (lit "  Bolt   M6 ")))
  = normalize_string lower_basic (Some (lit "  Bolt   M6 "))
  ∧ normalize_string lower_basic
      (Some (normalize_string lower_basic (Some (lit "  Bolt   M6 "))))
    = normalize_string lower_basic (Some (lit "  Bolt   M6 ")).
Proof.
  split; [reflexivity|].
  apply (normalize_string_idempotent lower_basic (Some (lit "  Bolt   M6 "))).
  reflexivity.
Defined.

Lemma first_occurrences_snoc (l : list cell) (n : cell) :
  first_occurrences (l ++ [n])
  = if decide (n ∈ l) then first_occurrences l else first_occurrences l ++ [n].
Proof.
  unfold first_occurrences. rewrite reverse_app. simpl.
  destruct (decide_rel elem_of n (reverse l)) as [Hin|Hin];
    rewrite elem_of_reverse in Hin.
  - by rewrite decide_True.
  - by rewrite decide_False, reverse_cons.
Qed.

Lemma elem_of_first_occurrences (l : list cell) (n : cell) :
  n ∈ first_occurrences l ↔ n ∈ l.
Proof.
  unfold first_occurrences.
  by rewrite elem_of_reverse, elem_of_remove_dups, elem_of_reverse.
Qed.

Lemma NoDup_first_occurrences (l : list cell) : NoDup (first_occurrences l).
Proof.
  unfold first_occurrences. rewrite reverse_Permutation.
  apply NoDup_remove_dups.
Qed.

Lemma names_matched_snoc key (ms : list match_pair) (m : match_pair) :
  names_matched key (ms ++ [m])
  = names_matched key ms
    ++ (if decide ((m.1.2, m.2) = key) then [m.1.1] else []).
Proof.
  unfold names_matched. rewrite filter_app, fmap_app, filter_cons, filter_nil.
  by destruct (decide ((m.1.2, m.2) = key)).
Qed.

Lemma elem_of_names_matched key (ms : list match_pair) (n : cell) :
  n ∈ names_matched key ms ↔ (n, key.1, key.2) ∈ ms.
Proof.
  unfold names_matched. rewrite list_elem_of_fmap. split.
  - intros ([[n' a] b] & -> & [Hk Hm]%list_elem_of_filter).
    simpl in *. by subst key.
  - intros Hm. exists (n, key.1, key.2). split; [done|].
    apply list_elem_of_filter. split; [by destruct key | done].
Qed.

Section MatcherFacts.

Variable lower : pystr -> pystr.
Variable csv_reader : pystr -> list (list cell).

Local Abbreviation norm := (normalize_string lower).
Local Abbreviation read := (read_csv_file_simple csv_reader).
Local Abbreviation entries := (collect_loc_entries lower csv_reader).
Local Abbreviation compare := (compare_files_1c_locman lower csv_reader).

(** *** The reader *)

Lemma blank_cell_true (c : cell) :
  blank_cell c = true
  ↔ c = None ∨ ∃ s, c = Some s ∧ Forall (fun x => Py_UNICODE_ISSPACE x) s.
Proof.
  destruct c as [s|]; simpl.
  - rewrite negb_true_iff, <- not_true_iff_false, truthy_true. split.
    + intros H. right. exists s. split; [done|]. apply py_strip_nil.
      destruct (decide (py_strip s = [])) as [Hd|Hd]; [done | by destruct H].
    + intros [|(s' & [= <-] & H)]; [done|]. apply py_strip_nil in H.
      by intros Hn.
  - split; [by left | done].
Qed.

Lemma blank_row_true (r : list cell) :
  negb (truthy_list r) || forallb blank_cell r = true ↔ blank_row r.
Proof.
  unfold blank_row. rewrite orb_true_iff, forallb_forall. split.
  - intros [Hr|Hr] c Hc.
    + destruct r; [by apply elem_of_nil in Hc | done].
    + by apply blank_cell_true, Hr, list_elem_of_In.
  - intros H. right. intros c Hc. by apply blank_cell_true, H, list_elem_of_In.
Qed.

Lemma sublist_filter_bool {A} (f : A → bool) (l : list A) :
  sublist (List.filter f l) l.
Proof.
  induction l as [|x l IH]; simpl; [constructor|].
  destruct (f x); by constructor.
Qed.

Lemma read_csv_filter (path : pystr) :
  read path = filter (fun r => ¬ blank_row r) (csv_reader path).
Proof.
  unfold read_csv_file_simple.
  induction (csv_reader path) as [|r rows IH]; [done|].
  rewrite filter_cons. cbn [List.filter]. rewrite IH.
  destruct (decide (¬ blank_row r)) as [Hr|Hr].
  - assert (negb (truthy_list r) || forallb blank_cell r = false) as ->;
      [|done].
    apply not_true_iff_false. by rewrite blank_row_true.
  - assert (negb (truthy_list r) || forallb blank_cell r = true) as ->;
      [|done].
    apply blank_row_true. by destruct (decide (blank_row r)).
Qed.

(** X4. [read_csv_file_simple] returns exactly the rows of the file that
    are not blank (a blank row has only cells that are [None] or
    whitespace), each as often as the file has it and in the order of the
    file; in particular the result is a sublist of the file, and a row is
    in it if and only if it is a row of the file that is not blank. *)
Theorem read_csv_drops_blank_rows (path : pystr) :
  read_csv_file_simple csv_reader path
  = filter (fun r => ¬ blank_row r) (csv_reader path)
  ∧ sublist (read path) (csv_reader path)
  ∧ ∀ r, r ∈ read path ↔ r ∈ csv_reader path ∧ ¬ blank_row r.
Proof.
  split; [apply read_csv_filter|].
  unfold read_csv_file_simple. split; [apply sublist_filter_bool|].
  intros r. rewrite list_elem_of_In, filter_In, <- list_elem_of_In.
  by rewrite negb_true_iff, <- not_true_iff_false, blank_row_true.
Qed.

(** *** Membership in the unmatched lists *)

Lemma elem_of_nomatches_1c file1_csv locman_csvs (n : cell) :
  n ∈ (compare file1_csv locman_csvs).1.2
  ↔ n ∈ names_1c lower (read file1_csv)
    ∧ ∀ e : loc_entry, e ∈ entries locman_csvs →
        keys_match e.1.2 (norm n) = false.
Proof.
  rewrite compare_nomatches_1c, list_elem_of_In, in_flat_map. split.
  - intros (n' & Hn' & Hin).
    destruct (existsb _ _) eqn:Hex in Hin; [done|].
    destruct Hin as [<-|[]]. split; [by apply list_elem_of_In|].
    intros e He. apply not_true_iff_false. intros Hk.
    apply not_true_iff_false in Hex. apply Hex, existsb_exists.
    exists e. by rewrite <- list_elem_of_In.
  - intros [Hn Hall]. exists n. split; [by apply list_elem_of_In|].
    destruct (existsb _ _) eqn:Hex; [|by left].
    apply existsb_exists in Hex as (e & He%list_elem_of_In & Hk).
    by rewrite (Hall e He) in Hk.
Qed.

Lemma elem_of_nomatches file1_csv locman_csvs (np : cell * list N) :
  np ∈ (compare file1_csv locman_csvs).1.1.2
  ↔ ∃ e : loc_entry,
      e ∈ entries locman_csvs ∧ np = identity_of e
      ∧ ∀ n, n ∈ names_1c lower (read file1_csv) →
          keys_match e.1.2 (norm n) = false.
Proof.
  rewrite compare_nomatches, list_elem_of_In, in_flat_map. split.
  - intros (e & He & Hin).
    destruct (existsb _ _) eqn:Hex in Hin; [done|].
    destruct Hin as [<-|[]]. exists e.
    split; [by apply list_elem_of_In|]. split; [done|].
    intros n Hn. apply not_true_iff_false. intros Hk.
    apply not_true_iff_false in Hex. apply Hex, existsb_exists.
    exists n. by rewrite <- list_elem_of_In.
  - intros (e & He & -> & Hall). exists e.
    split; [by apply list_elem_of_In|].
    destruct (existsb _ _) eqn:Hex; [|by left].
    apply existsb_exists in Hex as (n & Hn%list_elem_of_In & Hk).
    by rewrite (Hall n Hn) in Hk.
Qed.

(** X5. The matches come entry by entry, in the order of the Locman
    entries, and for one entry in the order of the 1C rows: one match for
    each pair of an entry and an eligible 1C row whose keys contain one
    another. *)
Theorem matches_enumeration file1_csv locman_csvs :
  (compare_files_1c_locman lower csv_reader file1_csv locman_csvs).1.1.1
  = flat_map
      (fun e : loc_entry =>
         map (fun n => (n, e.1.1, e.2))
           (List.filter (fun n => keys_match e.1.2 (norm n))
              (names_1c lower (read file1_csv))))
      (entries locman_csvs).
Proof. apply compare_matches. Qed.

(** X6. A 1C name and a Locman name that are equal once normalised are
    always matched: the match is recorded, and neither is reported as
    unmatched. *)
Theorem equal_keys_always_match file1_csv locman_csvs
    (row1 : list cell) (name_1c name_loc : cell) (key_loc loc_path : pystr) :
  row1 ∈ tail (read file1_csv) →
  row1 !! 1 = Some name_1c →
  norm name_1c ≠ [] →
  (name_loc, key_loc, loc_path) ∈ entries locman_csvs →
  norm name_1c = norm name_loc →
  let r := compare_files_1c_locman lower csv_reader file1_csv locman_csvs in
  (name_1c, name_loc, loc_path) ∈ r.1.1.1
  ∧ (name_1c ∉ r.1.2)
  ∧ ((name_loc, loc_path) ∉ r.1.1.2).
Proof.
  intros Hrow Hname Hkey He Heq. cbv zeta.
  pose proof (loc_entry_key lower csv_reader _ _ _ _ He) as [-> _].
  assert (name_1c ∈ names_1c lower (read file1_csv)) as Hn
    by (apply elem_of_names_1c; by exists row1).
  assert (keys_match (norm name_loc) (norm name_1c) = true) as Hk.
  { unfold keys_match. by rewrite Heq, py_in_refl. }
  split; [|split].
  - apply elem_of_matches. by exists (name_loc, norm name_loc, loc_path), name_1c.
  - intros [_ Hall]%elem_of_nomatches_1c.
    pose proof (Hall _ He) as Hf. simpl in Hf. by rewrite Hf in Hk.
  - intros ([[name' key'] path'] & He' & [= <- <-] & Hall)%elem_of_nomatches.
    pose proof (loc_entry_key lower csv_reader _ _ _ _ He') as [-> _].
    simpl in Hall. by rewrite (Hall _ Hn) in Hk.
Qed.

(** *** The candidate dictionary *)

Lemma options_inv_row_step (e : loc_entry) S (acc : match_state * bool) row1 :
  identity_of e ∈ S →
  options_inv S acc.1 →
  options_inv S (match_row_step lower e acc row1).1.
Proof.
  destruct e as [[name_loc key_loc] loc_path], acc as [st found].
  unfold identity_of. simpl. intros HS [Hopt Hkeys].
  unfold match_row_step.
  destruct (length row1 <? 2); [done|].
  destruct (row1 !! 1) as [name_1c|]; [|done].
  destruct (negb (truthy (norm name_1c))); [done|].
  destruct (keys_match key_loc (norm name_1c)); [|done].
  pose proof (Hopt (name_loc, loc_path)) as Hcur.
  rewrite decide_True in Hcur by done.
  rewrite (lookup_total_correct _ _ _ Hcur).
  split; simpl.
  - intros key. rewrite names_matched_snoc. simpl.
    destruct (decide ((name_loc, loc_path) = key)) as [<-|Hne].
    + rewrite decide_True by done. rewrite first_occurrences_snoc.
      destruct (decide (name_1c ∈ names_matched (name_loc, loc_path)
                                   (matches st))) as [Hin|Hin].
      * rewrite bool_decide_eq_true_2
          by (by apply elem_of_first_occurrences).
        done.
      * rewrite bool_decide_eq_false_2
          by (by rewrite elem_of_first_occurrences).
        by rewrite lookup_insert_eq.
    + rewrite app_nil_r.
      case_bool_decide; [apply Hopt|].
      rewrite lookup_insert_ne by done. apply Hopt.
  - intros m [Hm| ->%list_elem_of_singleton]%elem_of_app; [by apply Hkeys|done].
Qed.

Lemma options_inv_rows_fold (e : loc_entry) S rows (acc : match_state * bool) :
  identity_of e ∈ S →
  options_inv S acc.1 →
  options_inv S (fold_left (match_row_step lower e) rows acc).1.
Proof.
  intros HS. revert acc. induction rows as [|row1 rows IH]; intros acc Hinv.
  - done.
  - simpl. apply IH. by apply options_inv_row_step.
Qed.

Lemma options_inv_entry_step data_1c S (st : match_state) (e : loc_entry) :
  options_inv S st →
  options_inv (S ++ [identity_of e]) (match_entry_step lower data_1c st e).
Proof.
  intros [Hopt Hkeys]. unfold match_entry_step.
  destruct e as [[name_loc key_loc] loc_path]. unfold identity_of. simpl.
  set (key0 := (name_loc, loc_path)).
  match goal with
  | |- context [fold_left ?f ?l ?a] =>
      pose proof (options_inv_rows_fold (name_loc, key_loc, loc_path)
                    (S ++ [key0]) l a) as Hfold;
      destruct (fold_left f l a) as [st1 found]
  end.
  simpl in Hfold.
  assert (options_inv (S ++ [key0]) st1) as [Hopt1 Hkeys1].
  { apply Hfold; [apply elem_of_app; right; by apply list_elem_of_singleton|].
    split; simpl.
    - intros key. pose proof (Hopt key) as Hk.
      destruct (decide (key ∈ S)) as [HS|HS].
      + rewrite decide_True by (apply elem_of_app; by left).
        case_bool_decide as Hdom; [done|].
        rewrite lookup_insert_ne; [done|]. intros <-.
        by rewrite not_elem_of_dom, (Hopt key0), decide_True in Hdom.
      + destruct (decide (key = key0)) as [->|Hne].
        * rewrite decide_True
            by (apply elem_of_app; right; by apply list_elem_of_singleton).
          rewrite bool_decide_eq_false_2 by (by apply not_elem_of_dom).
          rewrite lookup_insert_eq. f_equal.
          assert (names_matched key0 (matches st) = []) as ->; [|done].
          apply elem_of_nil_inv. intros n Hn%elem_of_names_matched.
          apply HS. by apply (Hkeys _ Hn).
        * rewrite decide_False.
          2:{ intros [|?%list_elem_of_singleton]%elem_of_app; done. }
          case_bool_decide; [done|]. by rewrite lookup_insert_ne.
    - intros m Hm. apply elem_of_app. left. by apply Hkeys. }
  by destruct found.
Qed.

Lemma options_inv_entries_fold data_1c es : ∀ S (st : match_state),
  options_inv S st →
  options_inv (S ++ (identity_of <$> es))
    (fold_left (match_entry_step lower data_1c) es st).
Proof.
  induction es as [|e es IH]; intros S st Hinv.
  - by rewrite app_nil_r.
  - simpl fold_left. rewrite fmap_cons, cons_middle, (assoc_L (++)).
    apply IH. by apply options_inv_entry_step.
Qed.

Lemma options_inv_compare file1_csv locman_csvs :
  ∀ key,
    (compare file1_csv locman_csvs).2 !! key
    = if decide (key ∈ identity_of <$> entries locman_csvs)
      then Some (first_occurrences
                   (names_matched key (compare file1_csv locman_csvs).1.1.1))
      else None.
Proof.
  unfold compare_files_1c_locman. simpl.
  apply (options_inv_entries_fold (read file1_csv) (entries locman_csvs) []
           (MatchState [] [] ∅)).
  split; [|by intros m ?%elem_of_nil].
  intros key. cbn [locman_options matches]. rewrite lookup_empty.
  by destruct (decide (key ∈ [])) as [?%elem_of_nil|].
Qed.

(** X7. The candidate dictionary has one key for each identity
    [(name_loc, loc_path)] of a Locman entry and no other; the list under a
    key holds the 1C names of the matches of that identity, each once, in
    the order in which they are first matched. *)
Theorem locman_options_spec file1_csv locman_csvs :
  let r := compare_files_1c_locman lower csv_reader file1_csv locman_csvs in
  (∀ key,
     r.2 !! key
     = if decide (key ∈ identity_of <$> entries locman_csvs)
       then Some (first_occurrences (names_matched key r.1.1.1))
       else None)
  ∧ (∀ key l, r.2 !! key = Some l →
       NoDup l ∧ ∀ n, n ∈ l ↔ (n, key.1, key.2) ∈ r.1.1.1).
Proof.
  cbv zeta. split; [apply options_inv_compare|].
  intros key l. rewrite options_inv_compare.
  case_decide; [|done]. intros [= <-].
  split; [apply NoDup_first_occurrences|].
  intros n. by rewrite elem_of_first_occurrences, elem_of_names_matched.
Qed.

(** X8. An identity reported as unmatched has the empty list of
    candidates: the candidate dictionary offers 1C names only for the
    identities that are not in the unmatched list. *)
Theorem nomatches_have_no_candidates file1_csv locman_csvs
    (name_loc : cell) (loc_path : pystr) :
  let r := compare_files_1c_locman lower csv_reader file1_csv locman_csvs in
  (name_loc, loc_path) ∈ r.1.1.2 →
  r.2 !! (name_loc, loc_path) = Some [].
Proof.
  cbv zeta.
  intros ([[name key] path] & He & [= -> ->] & Hall)%elem_of_nomatches.
  simpl in Hall. rewrite options_inv_compare.
  rewrite decide_True.
  2:{ apply list_elem_of_fmap. by exists (name, key, path). }
  f_equal.
  assert (names_matched (name, path)
            (compare file1_csv locman_csvs).1.1.1 = []) as ->; [|done].
  apply elem_of_nil_inv. intros n Hn%elem_of_names_matched. simpl in Hn.
  apply elem_of_matches in Hn
    as ([[name' key'] path'] & n' & He' & Hn' & Hk & [= -> -> ->]).
  simpl in Hk.
  pose proof (loc_entry_key lower csv_reader _ _ _ _ He) as [-> _].
  pose proof (loc_entry_key lower csv_reader _ _ _ _ He') as [-> _].
  by rewrite (Hall _ Hn') in Hk.
Qed.

(** X9. When the 1C file gives no eligible row (it is unreadable, empty,
    reduced to its header, or has only rows that are too short or
    without a name), there is no match and no unmatched 1C name, every
    Locman entry is reported as unmatched, and every identity has the empty
    list of candidates. *)
Theorem compare_without_1c_rows file1_csv locman_csvs :
  names_1c lower (read file1_csv) = [] →
  let r := compare_files_1c_locman lower csv_reader file1_csv locman_csvs in
  r.1.1.1 = []
  ∧ r.1.1.2 = identity_of <$> entries locman_csvs
  ∧ r.1.2 = []
  ∧ (∀ key, r.2 !! key
            = if decide (key ∈ identity_of <$> entries locman_csvs)
              then Some [] else None).
Proof.
  intros Hnames. cbv zeta.
  assert ((compare file1_csv locman_csvs).1.1.1 = []) as Hm.
  { rewrite compare_matches, Hnames.
    induction (entries locman_csvs) as [|e es IH]; [done|]. by simpl. }
  split; [done|]. split; [|split].
  - rewrite compare_nomatches, Hnames. simpl.
    induction (entries locman_csvs) as [|e es IH]; [done|].
    simpl. by rewrite IH.
  - by rewrite compare_nomatches_1c, Hnames.
  - intros key. by rewrite options_inv_compare, Hm.
Qed.

(** X10. When the Locman files give no entry, there is no match, nothing in
    the unmatched Locman list and no candidate; every eligible 1C name is
    reported as unmatched, in the order of the rows. *)
Theorem compare_without_entries file1_csv locman_csvs :
  entries locman_csvs = [] →
  let r := compare_files_1c_locman lower csv_reader file1_csv locman_csvs in
  r.1.1.1 = [] ∧ r.1.1.2 = []
  ∧ r.1.2 = names_1c lower (read file1_csv)
  ∧ r.2 = ∅.
Proof.
  intros He. cbv zeta.
  split; [by rewrite compare_matches, He|].
  split; [by rewrite compare_nomatches, He|]. split.
  - rewrite compare_nomatches_1c, He. simpl.
    induction (names_1c lower (read file1_csv)) as [|n ns IH]; [done|].
    simpl. by rewrite IH.
  - apply map_eq. intros key.
    by rewrite options_inv_compare, He, lookup_empty.
Qed.

End MatcherFacts.

Lemma nomatches_have_no_candidates_witness :
  (Some (lit "washer"), lit "loc.csv")
    ∈ (compare_files_1c_locman lower_basic sample_csv (lit "1c.csv")
         [lit "loc.csv"]).1.1.2
  ∧ (compare_files_1c_locman lower_basic sample_csv (lit "1c.csv")
       [lit "loc.csv"]).2 !! (Some (lit "washer"), lit "loc.csv")
    = Some [].
Proof.
  assert ((Some (lit "washer"), lit "loc.csv")
            ∈ (compare_files_1c_locman lower_basic sample_csv (lit "1c.csv")
                 [lit "loc.csv"]).1.1.2) as Hin
    by (vm_compute; apply list_elem_of_here).
  split; [exact Hin|].
  exact (nomatches_have_no_candidates lower_basic sample_csv (lit "1c.csv")
           [lit "loc.csv"] (Some (lit "washer")) (lit "loc.csv") Hin).
Defined.

Lemma compare_without_1c_rows_witness :
  let r := compare_files_1c_locman lower_basic sample_csv (lit "missing.csv")
             [lit "loc.csv"] in
  names_1c lower_basic (read_csv_file_simple sample_csv (lit "missing.csv")) = []
  ∧ r.1.1.1 = []
  ∧ r.1.1.2 = identity_of
                <$> collect_loc_entries lower_basic sample_csv [lit "loc.csv"]
  ∧ r.1.2 = []
  ∧ (∀ key, r.2 !! key
            = if decide (key ∈ identity_of
                           <$> collect_loc_entries lower_basic sample_csv
                                 [lit "loc.csv"])
              then Some [] else None).
Proof.
  intros r. split; [reflexivity|].
  apply (compare_without_1c_rows lower_basic sample_csv (lit "missing.csv")
           [lit "loc.csv"]).
  reflexivity.
Defined.

Lemma compare_without_entries_witness :
  let r := compare_files_1c_locman lower_basic sample_csv (lit "1c.csv")
             [lit "missing.csv"] in
  collect_loc_entries lower_basic sample_csv [lit "missing.csv"] = []
  ∧ r.1.1.1 = [] ∧ r.1.1.2 = []
  ∧ r.1.2 = names_1c lower_basic
              (read_csv_file_simple sample_csv (lit "1c.csv"))
  ∧ r.2 = ∅.
Proof.
  intros r. split; [reflexivity|].
  apply (compare_without_entries lower_basic sample_csv (lit "1c.csv")
           [lit "missing.csv"]).
  reflexivity.
Defined.

Lemma equal_keys_always_match_witness :
  let row1 := [Some (lit "1"); Some (lit "  BOLT ")] in
  let files := fun path : pystr =>
    if bool_decide (path = lit "1c.csv")
    then [[Some (lit "code"); Some (lit "name")]; row1]
    else sample_csv path in
  let r := compare_files_1c_locman lower_basic files (lit "1c.csv")
             [lit "loc.csv"] in
  (Some (lit "  BOLT "), Some (lit "bolt"), lit "loc.csv") ∈ r.1.1.1
  ∧ (Some (lit "  BOLT ") ∉ r.1.2)
  ∧ ((Some (lit "bolt"), lit "loc.csv") ∉ r.1.1.2).
Proof.
  intros row1 files r.
  apply (equal_keys_always_match lower_basic files (lit "1c.csv")
           [lit "loc.csv"] row1 (Some (lit "  BOLT ")) (Some (lit "bolt"))
           (lit "bolt") (lit "loc.csv")).
  - vm_compute. apply list_elem_of_here.
  - reflexivity.
  - vm_compute. discriminate.
  - vm_compute. apply list_elem_of_here.
  - reflexivity.
Defined.

(** ** The converter *)

Section ConvertFacts.

Variable lower : pystr -> pystr.
Variable load_workbook : pystr -> option (list (option (list cell))).
Variable with_suffix_csv : pystr -> pystr.
Variable write_ok : pystr -> bool.

Local Abbreviation convert :=
  (convert_xlsx_to_csv lower load_workbook with_suffix_csv write_ok).

Lemma forallb_blank_cell (r : list cell) :
  forallb blank_cell r = true ↔ blank_row r.
Proof.
  rewrite <- blank_row_true. destruct r as [|c r]; [done|].
  by rewrite orb_false_l.
Qed.

Lemma convert_row_step_acc written row :
  convert_row_step written row = written ++ convert_row_step [] row.
Proof.
  destruct row as [r|]; simpl; [|by rewrite app_nil_r].
  destruct (forallb blank_cell r); by rewrite ?app_nil_r.
Qed.

Lemma elem_of_converted sheet (r : list cell) :
  r ∈ fold_left convert_row_step sheet []
  ↔ Some r ∈ sheet ∧ ¬ blank_row r.
Proof.
  rewrite (fold_left_append _ _ (fun acc x => convert_row_step_acc acc x)).
  simpl. rewrite list_elem_of_In, in_flat_map. split.
  - intros ([r'|] & Hin & Hr); simpl in Hr; [|done].
    destruct (forallb blank_cell r') eqn:Hb; [done|].
    destruct Hr as [<-|[]]. split; [by apply list_elem_of_In|].
    by rewrite <- forallb_blank_cell, Hb.
  - intros [Hin Hb]. exists (Some r). split; [by apply list_elem_of_In|].
    simpl. destruct (forallb blank_cell r) eqn:Hf; [|by left].
    by apply forallb_blank_cell in Hf.
Qed.

Lemma convert_written (path dst : pystr) (rows : list (list cell)) :
  (convert path).2 = Some (dst, rows) →
  dst = with_suffix_csv path ∧ (convert path).1 = dst
  ∧ ∃ sheet, load_workbook path = Some sheet
             ∧ rows = fold_left convert_row_step sheet [].
Proof.
  unfold convert_xlsx_to_csv.
  destruct (negb (truthy path) || _); [done|].
  destruct (load_workbook path) as [sheet|]; [|done].
  destruct (write_ok (with_suffix_csv path)); [|done].
  simpl. intros [= <- <-]. split; [done|]. split; [done|]. by exists sheet.
Qed.

Lemma py_endswith_spec (s suffix : pystr) :
  py_endswith s suffix = true ↔ ∃ p, s = p ++ suffix.
Proof.
  unfold py_endswith. rewrite py_startswith_spec. split.
  - intros [r Hr]. exists (reverse r).
    by rewrite <- (reverse_involutive s), Hr, reverse_app, reverse_involutive.
  - intros [q ->]. exists (reverse q). by rewrite reverse_app.
Qed.

Lemma converted_filter (sheet : list (option (list cell))) :
  fold_left convert_row_step sheet []
  = filter (fun r => ¬ blank_row r) (omap id sheet).
Proof.
  rewrite (fold_left_append _ _ (fun acc x => convert_row_step_acc acc x)).
  simpl. induction sheet as [|[r|] sheet IH]; [done| |done].
  cbn [flat_map omap list_omap id]. rewrite IH, filter_cons.
  unfold convert_row_step.
  destruct (forallb blank_cell r) eqn:Hb.
  - apply forallb_blank_cell in Hb.
    by destruct (decide (¬ blank_row r)).
  - destruct (decide (¬ blank_row r)) as [Hr|Hr]; [done|].
    apply not_true_iff_false in Hb. destruct Hb.
    apply forallb_blank_cell. by destruct (decide (blank_row r)).
Qed.

(** X11. [convert_xlsx_to_csv] returns its argument, and writes no file to
    its end, when the path is empty, when its lowercased form does not end
    in [.xlsx], when the workbook cannot be opened and when the file cannot
    be written. In every other case it returns the path with the suffix
    [.csv], and the file written there holds exactly the rows of the sheet
    that are not blank (a blank row has only cells that are [None] or
    whitespace), each as often as the sheet has it and in the order of the
    sheet; the rows that the iteration yields as [None] are left out. *)
Theorem convert_xlsx_to_csv_spec (path : pystr) :
  ((path = [] ∨ (¬ ∃ p, lower path = p ++ lit ".xlsx")
    ∨ load_workbook path = None ∨ write_ok (with_suffix_csv path) = false) →
   convert_xlsx_to_csv lower load_workbook with_suffix_csv write_ok path
   = (path, None))
  ∧ (∀ sheet,
       path ≠ [] →
       (∃ p, lower path = p ++ lit ".xlsx") →
       load_workbook path = Some sheet →
       write_ok (with_suffix_csv path) = true →
       convert_xlsx_to_csv lower load_workbook with_suffix_csv write_ok path
       = (with_suffix_csv path,
          Some (with_suffix_csv path,
                filter (fun r => ¬ blank_row r) (omap id sheet)))).
Proof.
  unfold convert_xlsx_to_csv. split.
  - intros H. destruct path as [|c path]; [done|]. simpl.
    destruct (py_endswith (lower (c :: path)) (lit ".xlsx")) eqn:Hend;
      [|done].
    apply py_endswith_spec in Hend. simpl.
    destruct (load_workbook (c :: path)); [|done].
    destruct (write_ok (with_suffix_csv (c :: path))); [|done].
    by destruct H as [|[|[|]]].
  - intros sheet Hpath Hend%py_endswith_spec Hsheet Hwrite.
    destruct path as [|c path]; [done|].
    rewrite Hend, Hsheet, Hwrite. simpl. by rewrite converted_filter.
Qed.

(** X12. The reader drops no row of a converted file: when [csv.reader]
    gives back the rows written, with the empty string for [None],
    [read_csv_file_simple] on the new path returns all of them. *)
Theorem read_converted_file (csv_reader : pystr → list (list cell))
    (path dst : pystr) (rows : list (list cell)) :
  (convert path).2 = Some (dst, rows) →
  csv_reader dst = map (map written_cell) rows →
  read_csv_file_simple csv_reader dst = map (map written_cell) rows.
Proof.
  intros Hconv Hread.
  destruct (convert_written path dst rows Hconv) as (_ & _ & sheet & _ & ->).
  unfold read_csv_file_simple. rewrite Hread.
  assert (Forall (fun r => ¬ blank_row r) (fold_left convert_row_step sheet []))
    as Hall.
  { apply Forall_forall. intros r Hr. by apply elem_of_converted in Hr as [_ ?]. }
  revert Hall. generalize (fold_left convert_row_step sheet []).
  intros rows Hall.
  clear -Hall. induction Hall as [|r rows Hr _ IH]; [done|].
  cbn [map List.filter]. rewrite IH.
  assert (negb (truthy_list (map written_cell r))
          || forallb blank_cell (map written_cell r) = false) as ->; [|done].
  apply not_true_iff_false. rewrite blank_row_true. intros Hb. apply Hr.
  intros c Hc.
  destruct (Hb (written_cell c)) as [|(s & [= Hs] & Hws)];
    [by apply list_elem_of_In, in_map, list_elem_of_In | done |].
  destruct c as [s'|]; [|by left]. right. exists s'. simpl in Hs. by subst.
Qed.

End ConvertFacts.

Lemma convert_xlsx_to_csv_spec_witness :
  convert_xlsx_to_csv lower_basic sample_workbook sample_with_suffix
    (fun _ => true) (lit "Items.XLSX")
  = (lit "Items.csv",
     Some (lit "Items.csv",
           [ [Some (lit "code"); Some (lit "name")];
             [Some (lit "1"); None] ])).
Proof.
  destruct (convert_xlsx_to_csv_spec lower_basic sample_workbook
              sample_with_suffix (fun _ => true) (lit "Items.XLSX"))
    as [_ Hwritten].
  rewrite (Hwritten [ Some [Some (lit "code"); Some (lit "name")];
                      Some [None; Some (lit "  ")];
                      Some [Some (lit "1"); None];
                      None ]).
  - reflexivity.
  - discriminate.
  - exists (lit "items"). reflexivity.
  - reflexivity.
  - reflexivity.
Defined.

Lemma read_converted_file_witness :
  let conv := convert_xlsx_to_csv lower_basic sample_workbook
                sample_with_suffix (fun _ => true) (lit "Items.XLSX") in
  let rows := [ [Some (lit "code"); Some (lit "name")];
                [Some (lit "1"); None] ] in
  conv.2 = Some (lit "Items.csv", rows)
  ∧ sample_converted_csv (lit "Items.csv") = map (map written_cell) rows
  ∧ read_csv_file_simple sample_converted_csv (lit "Items.csv")
    = map (map written_cell) rows.
Proof.
  intros conv rows. split; [reflexivity|]. split; [reflexivity|].
  apply (read_converted_file lower_basic sample_workbook sample_with_suffix
           (fun _ => true) sample_converted_csv (lit "Items.XLSX")
           (lit "Items.csv") rows); reflexivity.
Defined.

(** ** The mapping store *)

Import Db.

Lemma bind_unfold {A B} (m : M A) (k : A → M B) (c : conn) :
  (m ≫= k) c
  = match m c with
    | (inl a, c') => k a c'
    | (inr e, c') => (inr e, c')
    end.
Proof. reflexivity. Qed.

Lemma for_each_cons {A B} (body : B → A → M B) x (l : list A) b (c : conn) :
  for_each body (x :: l) b c
  = match body b x c with
    | (inl b', c') => for_each body l b' c'
    | (inr e, c') => (inr e, c')
    end.
Proof. reflexivity. Qed.

(** *** Filtering rows by identity *)

Lemma same_identity_true k r :
  same_identity k r = true ↔ (name_loc r, loc_path r) = k.
Proof. unfold same_identity. apply bool_decide_eq_true. Qed.

Lemma rows_of_app k l1 l2 : rows_of k (l1 ++ l2) = rows_of k l1 ++ rows_of k l2.
Proof. apply List.filter_app. Qed.

Lemma rows_of_all k l :
  Forall (fun r => (name_loc r, loc_path r) = k) l → rows_of k l = l.
Proof.
  induction 1 as [|r l Hr _ IH]; [done|]. unfold rows_of in *. simpl.
  by rewrite (proj2 (same_identity_true k r) Hr), IH.
Qed.

Lemma rows_of_none k k' l :
  k' ≠ k → Forall (fun r => (name_loc r, loc_path r) = k) l → rows_of k' l = [].
Proof.
  intros Hne. induction 1 as [|r l Hr _ IH]; [done|]. unfold rows_of in *.
  simpl. rewrite IH. destruct (same_identity k' r) eqn:Hs; [|done].
  apply same_identity_true in Hs. congruence.
Qed.

Lemma rows_of_deleted k l :
  rows_of k (List.filter (fun r => negb (same_identity k r)) l) = [].
Proof.
  induction l as [|r l IH]; [done|]. simpl.
  destruct (same_identity k r) eqn:Hs; simpl; [done|].
  unfold rows_of in *. simpl. by rewrite Hs.
Qed.

Lemma rows_of_deleted_other k k' l :
  k' ≠ k →
  rows_of k' (List.filter (fun r => negb (same_identity k r)) l) = rows_of k' l.
Proof.
  intros Hne. induction l as [|r l IH]; [done|]. unfold rows_of in *. simpl.
  destruct (same_identity k r) eqn:Hs; simpl; rewrite IH; [|done].
  destruct (same_identity k' r) eqn:Hs'; [|done].
  apply same_identity_true in Hs, Hs'. congruence.
Qed.

(** *** A save that meets no failure *)

Lemma save_name_fresh now k count n d cm :
  existsb (same_triple k n) (rows d) = false →
  save_name now k count n (Conn d cm None)
  = (inl (S count),
     Conn (Table (rows d ++ [MappingRow (N.succ (sqlite_sequence d))
                               k.1 k.2 n now now])
             (N.succ (sqlite_sequence d))) cm None).
Proof.
  intros H. unfold save_name, except_integrity.
  rewrite bind_unfold. unfold execute, sql_insert. simpl. by rewrite H.
Qed.

Lemma no_triple_of_fresh_name k n (l : list mapping_row) :
  (∀ r, r ∈ l → (name_loc r, loc_path r) = k → name_1c r ≠ n) →
  existsb (same_triple k n) l = false.
Proof.
  intros H. apply not_true_iff_false.
  intros (r & Hr%list_elem_of_In & Ht)%existsb_exists.
  unfold same_triple in Ht. apply andb_true_iff in Ht as [Hk Hn].
  apply same_identity_true in Hk. apply bool_decide_eq_true in Hn.
  by apply (H r).
Qed.

(** Inserting distinct names, none of which is recorded for the identity,
    appends one row per name. *)
Lemma save_names_ok now k names : ∀ count d cm,
  NoDup names →
  (∀ r, r ∈ rows d → (name_loc r, loc_path r) = k → name_1c r ∉ names) →
  ∃ new s,
    for_each (save_name now k) names count (Conn d cm None)
    = (inl (count + length names), Conn (Table (rows d ++ new) s) cm None)
    ∧ map name_1c new = names
    ∧ Forall (fun r => (name_loc r, loc_path r) = k) new.
Proof.
  induction names as [|n names IH]; intros count d cm Hnd Hfresh.
  - exists [], (sqlite_sequence d). simpl. rewrite app_nil_r, Nat.add_0_r.
    by destruct d.
  - apply NoDup_cons in Hnd as [Hn Hnd].
    rewrite for_each_cons, save_name_fresh.
    2:{ apply no_triple_of_fresh_name. intros r Hr Hk Heq.
        apply (Hfresh r Hr Hk). rewrite Heq. by left. }
    edestruct (IH (S count)) as (new & s & -> & Hnew & Hk); [done| |].
    { simpl. intros r [Hr| ->%list_elem_of_singleton]%elem_of_app Hk.
      - intros Hin. apply (Hfresh r Hr Hk). by right.
      - done. }
    eexists (_ :: new), s. simpl. rewrite <- app_assoc. simpl.
    split; [by rewrite Nat.add_succ_r|]. split; [by rewrite Hnew|].
    constructor; [by destruct k | done].
Qed.

(** One identity: its rows become those of the new names, in order; the
    rows of the other identities stay. *)
Lemma save_identity_ok now count k names d cm :
  NoDup names →
  ∃ d',
    save_identity now count (k, names) (Conn d cm None)
    = (inl (count + length names), Conn d' cm None)
    ∧ names_of k (rows d') = names
    ∧ ∀ k', k' ≠ k → rows_of k' (rows d') = rows_of k' (rows d).
Proof.
  intros Hnd. unfold save_identity. rewrite bind_unfold. simpl.
  edestruct (save_names_ok now k names count) as (new & s & -> & Hnew & Hk);
    [done| |].
  { simpl. intros r Hr%list_elem_of_In%filter_In Hid.
    destruct Hr as [_ Hr]. apply negb_true_iff in Hr.
    apply same_identity_true in Hid. congruence. }
  eexists. split; [done|]. simpl. split.
  - unfold names_of. by rewrite rows_of_app, rows_of_deleted, (rows_of_all k new).
  - intros k' Hne.
    by rewrite rows_of_app, (rows_of_none k k' new), app_nil_r,
      rows_of_deleted_other.
Qed.

(** The whole dictionary, given as the list of its items. *)
Lemma save_items_ok now (items : list (identity * list pystr)) :
  ∀ count d cm,
  NoDup items.*1 →
  Forall (fun item => NoDup item.2) items →
  ∃ d',
    for_each (save_identity now) items count (Conn d cm None)
    = (inl (count + sum_list_with (fun item => length item.2) items),
       Conn d' cm None)
    ∧ (∀ k names, (k, names) ∈ items → names_of k (rows d') = names)
    ∧ (∀ k, k ∉ items.*1 → rows_of k (rows d') = rows_of k (rows d)).
Proof.
  induction items as [|[k names] items IH]; intros count d cm Hkeys Hsets.
  - exists d. simpl. rewrite Nat.add_0_r. split; [done|].
    split; [by intros ?? ?%elem_of_nil | done].
  - rewrite fmap_cons in Hkeys. apply NoDup_cons in Hkeys as [Hk Hkeys].
    apply Forall_cons in Hsets as [Hnames Hsets].
    rewrite for_each_cons.
    destruct (save_identity_ok now count k names d cm Hnames)
      as (d1 & -> & Hnew & Hother).
    destruct (IH (count + length names) d1 cm Hkeys Hsets)
      as (d' & -> & Hin & Hout).
    exists d'. split; [simpl; by rewrite Nat.add_assoc|]. split.
    + intros k0 names0 [[= -> ->]|Hin0]%elem_of_cons.
      * unfold names_of. by rewrite Hout.
      * by apply Hin.
    + intros k0 Hk0. rewrite fmap_cons in Hk0.
      apply not_elem_of_cons in Hk0 as [Hne Hk0].
      rewrite Hout by done. by apply Hother.
Qed.

Lemma rows_init_database st : rows (init_database st) = store_rows st.
Proof. by destruct st. Qed.

Lemma items_fst {A B C} (f : B → C) (l : list (A * B)) :
  (map (fun kv : A * B => (kv.1, f kv.2)) l).*1 = l.*1.
Proof.
  induction l as [|kv l IH]; [done|].
  cbn [map]. by rewrite !fmap_cons, IH.
Qed.

Lemma items_sum {A} (l : list (A * gset pystr)) :
  sum_list_with (fun item : A * list pystr => length item.2)
    (map (fun kv : A * gset pystr => (kv.1, elements kv.2)) l)
  = sum_list_with (fun kv : A * gset pystr => size kv.2) l.
Proof.
  induction l as [|kv l IH]; [done|].
  cbn [map sum_list_with]. by rewrite IH.
Qed.

Lemma save_mappings_ok (now : pystr) (m : gmap identity (gset pystr))
    (st : store) :
  ∃ d',
    save_mappings now m None st
    = (inl (sum_list_with (fun kv : identity * gset pystr => size kv.2)
              (map_to_list m)), Some d')
    ∧ (∀ k s, m !! k = Some s → names_of k (rows d') = elements s)
    ∧ (∀ k, m !! k = None → rows_of k (rows d') = rows_of k (store_rows st)).
Proof.
  unfold save_mappings, save_batch, get_connection.
  set (items := map (fun kv : identity * gset pystr => (kv.1, elements kv.2))
                  (map_to_list m)).
  assert (items.*1 = (map_to_list m).*1) as Hfst by apply items_fst.
  destruct (save_items_ok now items 0 (init_database st) (init_database st))
    as (d' & Hrun & Hin & Hout).
  { rewrite Hfst. apply NoDup_fst_map_to_list. }
  { unfold items. apply Forall_forall. intros item Hitem.
    apply list_elem_of_In, in_map_iff in Hitem as (kv & <- & _).
    apply NoDup_elements. }
  rewrite bind_unfold, Hrun. simpl. exists d'. split; [|split].
  - f_equal. f_equal. apply items_sum.
  - intros k s Hk. apply Hin. unfold items.
    apply list_elem_of_In, in_map_iff. exists (k, s).
    split; [done|]. by apply list_elem_of_In, elem_of_map_to_list.
  - intros k Hk. rewrite Hout, rows_init_database; [done|].
    rewrite Hfst. intros ((k' & s) & -> & Hin')%list_elem_of_fmap.
    apply elem_of_map_to_list in Hin'. simpl in Hk. congruence.
Qed.

(** *** Loading *)

Lemma load_row_lookup (m : gmap identity (gset pystr)) r k :
  load_row m r !! k
  = if same_identity k r
    then Some (default ∅ (m !! k) ∪ {[name_1c r]})
    else m !! k.
Proof.
  unfold load_row, same_identity.
  destruct (decide ((name_loc r, loc_path r) = k)) as [<-|Hne].
  - rewrite (bool_decide_eq_true_2 (_ = _)) by done. rewrite lookup_insert_eq.
    f_equal. f_equal.
    destruct (decide ((name_loc r, loc_path r) ∈ dom m)) as [Hd|Hd].
    + rewrite bool_decide_eq_true_2 by done.
      apply elem_of_dom in Hd as [s Hs].
      by rewrite (lookup_total_correct _ _ _ Hs), Hs.
    + rewrite bool_decide_eq_false_2 by done.
      rewrite lookup_total_insert_eq.
      apply not_elem_of_dom in Hd. by rewrite Hd.
  - rewrite (bool_decide_eq_false_2 (_ = k)) by done.
    rewrite lookup_insert_ne by done.
    case_bool_decide; [done|]. by rewrite lookup_insert_ne.
Qed.

Lemma names_of_cons k r l :
  names_of k (r :: l)
  = if same_identity k r then name_1c r :: names_of k l else names_of k l.
Proof. unfold names_of, rows_of. simpl. by destruct (same_identity k r). Qed.

Lemma fold_load_row_lookup l : ∀ (m : gmap identity (gset pystr)) k,
  fold_left load_row l m !! k
  = match names_of k l with
    | [] => m !! k
    | ns => Some (default ∅ (m !! k) ∪ list_to_set ns)
    end.
Proof.
  induction l as [|r l IH]; intros m k; [done|].
  simpl fold_left. rewrite IH, names_of_cons, load_row_lookup.
  destruct (same_identity k r); [|done].
  destruct (names_of k l) as [|n ns]; simpl; f_equal.
  - by rewrite (right_id_L ∅ (∪)).
  - symmetry. apply (assoc_L (∪)).
Qed.

Lemma names_of_Permutation k l1 l2 :
  l1 ≡ₚ l2 → names_of k l1 ≡ₚ names_of k l2.
Proof.
  induction 1 as [|r l1 l2 _ IH|r1 r2 l|l1 l2 l3 _ IH1 _ IH2].
  - done.
  - rewrite !names_of_cons. destruct (same_identity k r); by rewrite IH.
  - rewrite !names_of_cons.
    destruct (same_identity k r1), (same_identity k r2); try done.
    apply perm_swap.
  - by rewrite IH1.
Qed.

(** What [load_mappings] holds for an identity: nothing when the store has
    no row for it, else the set of the names of its rows. *)
Lemma load_mappings_lookup st k :
  load_mappings st !! k
  = match names_of k (store_rows st) with
    | [] => None
    | ns => Some (list_to_set ns)
    end.
Proof.
  destruct st as [t|]; [|done]. simpl.
  rewrite fold_load_row_lookup, lookup_empty. simpl.
  pose proof (names_of_Permutation k _ _
                (merge_sort_Permutation updated_desc (rows t))) as Hp.
  unfold order_by_updated_at_desc.
  destruct (names_of k (merge_sort updated_desc (rows t))) as [|n ns] eqn:Hs.
  - apply Permutation_nil in Hp. by rewrite Hp.
  - destruct (names_of k (rows t)) as [|n' ns'] eqn:Ht.
    + symmetry in Hp. by apply Permutation_nil in Hp.
    + f_equal. rewrite (left_id_L ∅ (∪)), <- !list_to_set_cons.
      apply set_eq. intros x. rewrite !elem_of_list_to_set. by rewrite Hp.
Qed.

Lemma load_mappings_nonempty st k s : load_mappings st !! k = Some s → s ≠ ∅.
Proof.
  rewrite load_mappings_lookup.
  destruct (names_of k (store_rows st)) as [|n ns]; [done|].
  intros [= <-]. set_solver.
Qed.

Lemma get_mappings_for_locman_spec n p st :
  get_mappings_for_locman n p st = list_to_set (names_of (n, p) (store_rows st)).
Proof.
  destruct st as [t|]; [|done]. simpl. unfold names_of, rows_of.
  generalize (List.filter (same_identity (n, p)) (rows t)). intros l.
  rewrite <- (left_id_L ∅ (∪) (list_to_set _)).
  generalize (∅ : gset pystr). induction l as [|r l IH]; intros acc; simpl.
  - by rewrite (right_id_L ∅ (∪)).
  - rewrite IH. symmetry. apply (assoc_L (∪)).
Qed.

(** *** A save that meets a failure *)

Lemma keeps_committed_ret {A} (a : A) : keeps_committed (mret a : M A).
Proof. by intros c. Qed.

Lemma keeps_committed_execute {A} (stmt : table → (A + exn) * table) :
  keeps_committed (execute stmt).
Proof.
  intros c. unfold execute.
  destruct (faults c) as [[|f]|]; [done| |]; by destruct (stmt (db c)).
Qed.

Lemma keeps_committed_bind {A B} (m : M A) (k : A → M B) :
  keeps_committed m → (∀ a, keeps_committed (k a)) → keeps_committed (m ≫= k).
Proof.
  intros Hm Hk c. rewrite bind_unfold. specialize (Hm c).
  destruct (m c) as [[a|e] c1]; simpl in *; [|done].
  by rewrite Hk.
Qed.

Lemma keeps_committed_except {A} (m h : M A) :
  keeps_committed m → keeps_committed h → keeps_committed (except_integrity m h).
Proof.
  intros Hm Hh c. unfold except_integrity. specialize (Hm c).
  destruct (m c) as [[a|[]] c1]; simpl in *; try done.
  by rewrite Hh.
Qed.

Lemma keeps_committed_for_each {A B} (body : B → A → M B) (l : list A) :
  (∀ b x, keeps_committed (body b x)) → ∀ b, keeps_committed (for_each body l b).
Proof.
  intros Hbody. induction l as [|x l IH]; intros b.
  - apply keeps_committed_ret.
  - apply keeps_committed_bind; [apply Hbody | apply IH].
Qed.

Create HintDb store discriminated.

#[local] Hint Resolve keeps_committed_ret keeps_committed_execute
  keeps_committed_bind keeps_committed_except keeps_committed_for_each : store.

Lemma keeps_committed_save_identity now count item :
  keeps_committed (save_identity now count item).
Proof. unfold save_identity, save_name. eauto 10 with store. Qed.

Lemma only_operational_bind {A B} (m : M A) (k : A → M B) :
  raises_only_operational m → (∀ a, raises_only_operational (k a)) →
  raises_only_operational (m ≫= k).
Proof.
  intros Hm Hk c e c'. rewrite bind_unfold.
  destruct (m c) as [[a|e1] c1] eqn:Hmc.
  - apply Hk.
  - intros [= <- <-]. by apply (Hm c e1 c1).
Qed.

Lemma only_operational_ret {A} (a : A) : raises_only_operational (mret a : M A).
Proof. by intros c e c'. Qed.

Lemma only_operational_execute {A} (stmt : table → (A + exn) * table) :
  (∀ t e t', stmt t = (inr e, t') → e = OperationalError) →
  raises_only_operational (execute stmt).
Proof.
  intros Hstmt c e c'. unfold execute.
  destruct (faults c) as [[|f]|]; [by intros [= <- _]| |];
    destruct (stmt (db c)) as [r t] eqn:Hs; intros [= -> _]; by eapply Hstmt.
Qed.

Lemma only_operational_for_each {A B} (body : B → A → M B) (l : list A) :
  (∀ b x, raises_only_operational (body b x)) →
  ∀ b, raises_only_operational (for_each body l b).
Proof.
  intros Hbody. induction l as [|x l IH]; intros b.
  - apply only_operational_ret.
  - apply only_operational_bind; [apply Hbody | apply IH].
Qed.

(** The conflict that an insertion meets is handled on the spot. *)
Lemma only_operational_save_name now k count n :
  raises_only_operational (save_name now k count n).
Proof.
  intros c e c'. unfold save_name, except_integrity.
  destruct ((execute (sql_insert k n now now);; mret (S count)) c)
    as [[a|[]] c1] eqn:Hins.
  - done.
  - apply only_operational_bind; [|intros; apply only_operational_ret].
    apply only_operational_execute. by intros t e' t' [= _].
  - by intros [= <- _].
Qed.

Lemma only_operational_delete k :
  raises_only_operational (execute (sql_delete_identity k)).
Proof. apply only_operational_execute. by intros t e t' [= _]. Qed.

#[local] Hint Resolve only_operational_ret only_operational_bind
  only_operational_for_each only_operational_save_name
  only_operational_delete : store.

Lemma only_operational_save_identity now count item :
  raises_only_operational (save_identity now count item).
Proof. unfold save_identity. eauto with store. Qed.

(** When the batch raises, the durable contents are those it started from
    and the exception is the failure of the storage layer. *)
Lemma save_batch_raises now items c e c' :
  save_batch now items c = (inr e, c') →
  committed c' = committed c ∧ e = OperationalError.
Proof.
  unfold save_batch. rewrite bind_unfold.
  pose proof (keeps_committed_for_each (save_identity now) items
                (keeps_committed_save_identity now) 0 c) as Hkeep.
  pose proof (only_operational_for_each (save_identity now) items
                (only_operational_save_identity now) 0 c) as Hop.
  destruct (for_each (save_identity now) items 0 c) as [[count|e1] c1].
  - simpl in Hkeep. rewrite bind_unfold. unfold commit.
    destruct (faults c1) as [[|f]|]; simpl; try done.
    by intros [= <- <-].
  - intros [= <- <-]. split; [done|]. by eapply Hop.
Qed.

(** *** Saving and loading *)

(** The sample dictionary on a new store: two rows written, and a failure
    at the third statement leaves an empty table. *)
Example save_sample :
  (save_mappings t0 sample_first None None).1 = inl 2
  ∧ save_mappings t0 sample_first (Some 2) None
    = (inr OperationalError, Some (Table [] 0)).
Proof. split; vm_compute; reflexivity. Qed.

(** C4, as stated, fails: an identity saved with the empty set is not in
    the dictionary that [load_mappings] returns. *)
Lemma roundtrip_loses_empty_set :
  load_mappings (save_mappings t0 sample_empty_choice None None).2
  ≠ sample_empty_choice.
Proof.
  intros H. apply (f_equal (fun m => m !! bolt_id)) in H.
  vm_compute in H. discriminate.
Qed.

(** C4, amended. After [save_mappings(mappings)] on a store without rows,
    [load_mappings()] returns [mappings] without the identities whose set is
    empty; it returns [mappings] itself when no set is empty. *)
Theorem save_load_roundtrip (now : pystr) (m : gmap identity (gset pystr))
    (st : store) :
  store_rows st = [] →
  load_mappings (save_mappings now m None st).2
  = filter (fun kv : identity * gset pystr => kv.2 ≠ ∅) m
  ∧ ((∀ k, m !! k ≠ Some ∅) →
     load_mappings (save_mappings now m None st).2 = m).
Proof.
  intros Hfresh.
  assert (load_mappings (save_mappings now m None st).2
          = filter (fun kv : identity * gset pystr => kv.2 ≠ ∅) m) as Heq.
  { destruct (save_mappings_ok now m st) as (d' & -> & Hin & Hout).
    apply map_eq. intros k. rewrite load_mappings_lookup. simpl.
    destruct (m !! k) as [s|] eqn:Hk.
    - rewrite (Hin k s Hk). destruct (decide (s = ∅)) as [->|Hs].
      + rewrite elements_empty. symmetry. apply map_lookup_filter_None_2.
        right. intros x Hx. simpl. rewrite Hk in Hx. injection Hx as <-.
        by intros Hne.
      + destruct (elements s) as [|n ns] eqn:He.
        { by apply elements_empty_inv, leibniz_equiv in He. }
        rewrite <- list_to_set_cons, <- He, list_to_set_elements_L. symmetry.
        by apply map_lookup_filter_Some_2.
    - unfold names_of. rewrite (Hout k Hk), Hfresh. simpl. symmetry.
      apply map_lookup_filter_None_2. by left. }
  split; [done|]. intros Hne. rewrite Heq. apply map_filter_id.
  intros k s Hk. simpl. intros ->. by apply (Hne k).
Qed.

Lemma save_load_roundtrip_witness :
  store_rows None = []
  ∧ load_mappings (save_mappings t0 sample_first None None).2
  = filter (fun kv : identity * gset pystr => kv.2 ≠ ∅) sample_first
  ∧ ((∀ k, sample_first !! k ≠ Some ∅) →
     load_mappings (save_mappings t0 sample_first None None).2 = sample_first).
Proof.
  split; [reflexivity|].
  apply (save_load_roundtrip t0 sample_first None). reflexivity.
Defined.

(** C5. When an identity is saved with a set S1 and later with a set S2,
    the store then holds for it exactly the names of S2, one row each: no
    name of S1 outside S2 is left; the rows of the identities that the
    second call does not name are the same as before it. *)
Theorem resave_replaces_set (now1 now2 : pystr)
    (m1 m2 : gmap identity (gset pystr)) (st : store)
    (k : identity) (S1 S2 : gset pystr) :
  m1 !! k = Some S1 →
  m2 !! k = Some S2 →
  let st1 := (save_mappings now1 m1 None st).2 in
  let st2 := (save_mappings now2 m2 None st1).2 in
  names_of k (store_rows st2) = elements S2
  ∧ get_mappings_for_locman k.1 k.2 st2 = S2
  ∧ (∀ n, n ∈ S1 → n ∉ S2 → n ∉ names_of k (store_rows st2))
  ∧ (∀ k', m2 !! k' = None →
           rows_of k' (store_rows st2) = rows_of k' (store_rows st1)).
Proof.
  intros _ H2 st1 st2. subst st2. destruct k as [n p].
  destruct (save_mappings_ok now2 m2 st1) as (d' & -> & Hin & Hout).
  rewrite get_mappings_for_locman_spec. cbn [fst snd store_rows].
  rewrite (Hin _ _ H2). split; [done|]. split; [|split].
  - apply list_to_set_elements_L.
  - intros x _ Hx. by rewrite elem_of_elements.
  - done.
Qed.

Lemma resave_replaces_set_witness :
  let st1 := (save_mappings t0 sample_first None None).2 in
  let st2 := (save_mappings t1 sample_second None st1).2 in
  sample_first !! bolt_id = Some {[ lit "Bolt M6"; lit "Bolt M8" ]}
  ∧ sample_second !! bolt_id = Some {[ lit "Bolt M8"; lit "Bolt M10" ]}
  ∧ names_of bolt_id (store_rows st2)
  = elements ({[ lit "Bolt M8"; lit "Bolt M10" ]} : gset pystr)
  ∧ get_mappings_for_locman bolt_id.1 bolt_id.2 st2
    = {[ lit "Bolt M8"; lit "Bolt M10" ]}
  ∧ (∀ n, n ∈ ({[ lit "Bolt M6"; lit "Bolt M8" ]} : gset pystr) →
          n ∉ ({[ lit "Bolt M8"; lit "Bolt M10" ]} : gset pystr) →
          n ∉ names_of bolt_id (store_rows st2))
  ∧ (∀ k', sample_second !! k' = None →
           rows_of k' (store_rows st2) = rows_of k' (store_rows st1)).
Proof.
  intros st1 st2. split; [reflexivity|]. split; [reflexivity|].
  apply (resave_replaces_set t0 t1 sample_first sample_second None bolt_id);
    reflexivity.
Defined.

Lemma sum_list_with_filter_zero {A} (f : A → nat) (P : A → Prop)
    `{!∀ x, Decision (P x)} (l : list A) :
  (∀ x, ¬ P x → f x = 0) →
  sum_list_with f (filter P l) = sum_list_with f l.
Proof.
  intros Hzero. induction l as [|x l IH]; [done|].
  rewrite filter_cons. destruct (decide (P x)) as [HP|HP]; simpl.
  - by rewrite IH.
  - by rewrite IH, (Hzero x HP).
Qed.

(** C9. When [save_mappings] receives an identity mapped to the empty set,
    the rows of that identity are deleted and none is inserted, so a load
    that follows does not have the identity; [load_mappings] never maps an
    identity to the empty set; and the value returned by [save_mappings] is
    the sum of the sizes of the non-empty sets. *)
Theorem save_empty_set_drops_identity (now : pystr)
    (m : gmap identity (gset pystr)) (st : store) (k : identity) :
  m !! k = Some ∅ →
  rows_of k (store_rows (save_mappings now m None st).2) = []
  ∧ load_mappings (save_mappings now m None st).2 !! k = None
  ∧ (∀ st' k' s, load_mappings st' !! k' = Some s → s ≠ ∅)
  ∧ (save_mappings now m None st).1
    = inl (sum_list_with (fun kv : identity * gset pystr => size kv.2)
             (filter (fun kv : identity * gset pystr => kv.2 ≠ ∅)
                (map_to_list m))).
Proof.
  intros Hk.
  destruct (save_mappings_ok now m st) as (d' & -> & Hin & _).
  pose proof (Hin k ∅ Hk) as Hnames. rewrite elements_empty in Hnames.
  cbn [fst snd store_rows].
  assert (rows_of k (rows d') = []) as Hrows.
  { unfold names_of in Hnames. by apply map_eq_nil in Hnames. }
  split; [done|]. split; [|split].
  - rewrite load_mappings_lookup. cbn [store_rows]. by rewrite Hnames.
  - apply load_mappings_nonempty.
  - f_equal. symmetry. apply sum_list_with_filter_zero.
    intros [k' s] Hs. simpl in *. destruct (decide (s = ∅)) as [->|]; [|done].
    apply size_empty.
Qed.

Lemma save_empty_set_drops_identity_witness :
  sample_first !! nut_id = Some ∅
  ∧ rows_of nut_id (store_rows (save_mappings t0 sample_first None sample_store).2)
  = []
  ∧ load_mappings (save_mappings t0 sample_first None sample_store).2 !! nut_id
    = None
  ∧ (∀ st' k' s, load_mappings st' !! k' = Some s → s ≠ ∅)
  ∧ (save_mappings t0 sample_first None sample_store).1
    = inl (sum_list_with (fun kv : identity * gset pystr => size kv.2)
             (filter (fun kv : identity * gset pystr => kv.2 ≠ ∅)
                (map_to_list sample_first))).
Proof.
  split; [reflexivity|].
  apply (save_empty_set_drops_identity t0 sample_first sample_store nut_id).
  reflexivity.
Defined.

(** *** A save that meets a failure *)

Lemma save_name_fails now k count n d cm :
  save_name now k count n (Conn d cm (Some 0))
  = (inr OperationalError, Conn d cm (Some 0)).
Proof. reflexivity. Qed.

Lemma save_name_fresh_budget now k count n d cm b :
  existsb (same_triple k n) (rows d) = false →
  save_name now k count n (Conn d cm (Some (S b)))
  = (inl (S count),
     Conn (Table (rows d ++ [MappingRow (N.succ (sqlite_sequence d))
                               k.1 k.2 n now now])
             (N.succ (sqlite_sequence d))) cm (Some b)).
Proof.
  intros H. unfold save_name, except_integrity.
  rewrite bind_unfold. unfold execute, sql_insert. simpl. by rewrite H.
Qed.

(** The names of one identity, none of them recorded yet: each takes one
    statement, so the loop raises when fewer statements are left than there
    are names, and otherwise uses up one per name. *)
Lemma save_names_budget now k names : ∀ count d cm b,
  NoDup names →
  (∀ r, r ∈ rows d → (name_loc r, loc_path r) = k → name_1c r ∉ names) →
  (b < length names →
   ∃ c', for_each (save_name now k) names count (Conn d cm (Some b))
         = (inr OperationalError, c'))
  ∧ (length names ≤ b →
     ∃ d', for_each (save_name now k) names count (Conn d cm (Some b))
           = (inl (count + length names),
              Conn d' cm (Some (b - length names)))).
Proof.
  induction names as [|n names IH]; intros count d cm b Hnd Hfresh.
  - simpl. split; [lia|]. intros _. exists d.
    by rewrite Nat.add_0_r, Nat.sub_0_r.
  - apply NoDup_cons in Hnd as [Hn Hnd]. rewrite for_each_cons.
    destruct b as [|b].
    + rewrite save_name_fails. split; [by eexists | simpl; lia].
    + rewrite save_name_fresh_budget.
      2:{ apply no_triple_of_fresh_name. intros r Hr Hk Heq.
          apply (Hfresh r Hr Hk). rewrite Heq. by left. }
      edestruct (IH (S count)
                   (Table (rows d ++ [MappingRow (N.succ (sqlite_sequence d))
                                        k.1 k.2 n now now])
                      (N.succ (sqlite_sequence d))) cm b)
        as [Hfail Hpass]; [done| |].
      { simpl. intros r [Hr| ->%list_elem_of_singleton]%elem_of_app Hk.
        - intros Hin. apply (Hfresh r Hr Hk). by right.
        - done. }
      simpl. split.
      * intros Hb. apply Hfail. lia.
      * intros Hb. destruct Hpass as [d' ->]; [lia|]. exists d'.
        by rewrite Nat.add_succ_r.
Qed.

(** One identity takes one statement more, for its [DELETE]. *)
Lemma save_identity_budget now count k names d cm b :
  NoDup names →
  (b < S (length names) →
   ∃ c', save_identity now count (k, names) (Conn d cm (Some b))
         = (inr OperationalError, c'))
  ∧ (S (length names) ≤ b →
     ∃ d', save_identity now count (k, names) (Conn d cm (Some b))
           = (inl (count + length names),
              Conn d' cm (Some (b - S (length names))))).
Proof.
  intros Hnd. unfold save_identity. rewrite bind_unfold.
  destruct b as [|b].
  - split; [by eexists | lia].
  - cbn [execute faults db committed sql_delete_identity fmap option_fmap
         option_map pred fst snd].
    edestruct (save_names_budget now k names count
                 (Table (List.filter (fun r => negb (same_identity k r))
                           (rows d)) (sqlite_sequence d)) cm b)
      as [Hfail Hpass]; [done| |].
    { simpl. intros r Hr%list_elem_of_In%filter_In Hid.
      destruct Hr as [_ Hr]. apply negb_true_iff in Hr.
      apply same_identity_true in Hid. congruence. }
    split.
    + intros Hb. apply Hfail. lia.
    + intros Hb. destruct Hpass as [d' Hd']; [lia|]. by exists d'.
Qed.

(** The items of the dictionary, one after the other. *)
Lemma save_items_budget now (items : list (identity * list pystr)) :
  ∀ count d cm b,
  Forall (fun item => NoDup item.2) items →
  (b < sum_list_with (fun item => S (length item.2)) items →
   ∃ c', for_each (save_identity now) items count (Conn d cm (Some b))
         = (inr OperationalError, c'))
  ∧ (sum_list_with (fun item => S (length item.2)) items ≤ b →
     ∃ count' d',
       for_each (save_identity now) items count (Conn d cm (Some b))
       = (inl count',
          Conn d' cm
            (Some (b - sum_list_with (fun item => S (length item.2)) items)))).
Proof.
  induction items as [|[k names] items IH]; intros count d cm b Hsets.
  - simpl. split; [lia|]. intros _. exists count, d. by rewrite Nat.sub_0_r.
  - apply Forall_cons in Hsets as [Hnames Hsets].
    rewrite for_each_cons. cbn [sum_list_with snd].
    destruct (save_identity_budget now count k names d cm b Hnames)
      as [Hfail Hpass].
    destruct (decide (b < S (length names))) as [Hb|Hb].
    + destruct (Hfail Hb) as [c' ->]. split; [by eexists | lia].
    + destruct Hpass as [d1 ->]; [lia|].
      destruct (IH (count + length names) d1 cm (b - S (length names)) Hsets)
        as [Hfail' Hpass'].
      split.
      * intros Hlt. apply Hfail'. lia.
      * intros Hle. destruct Hpass' as (count' & d' & ->); [lia|].
        exists count', d'. do 3 f_equal. lia.
Qed.

(** The batch ends with the commit, which is one more step that can
    fail. *)
Lemma save_batch_budget now (items : list (identity * list pystr)) d cm b :
  Forall (fun item => NoDup item.2) items →
  b < sum_list_with (fun item => S (length item.2)) items + 1 →
  ∃ c', save_batch now items (Conn d cm (Some b))
        = (inr OperationalError, c').
Proof.
  intros Hsets Hb. unfold save_batch. rewrite bind_unfold.
  destruct (save_items_budget now items 0 d cm b Hsets) as [Hfail Hpass].
  destruct (decide (b < sum_list_with (fun item => S (length item.2)) items))
    as [Hlt|Hge].
  - destruct (Hfail Hlt) as [c' ->]. by eexists.
  - destruct Hpass as (count' & d' & ->); [lia|].
    replace (b - sum_list_with (fun item => S (length item.2)) items)
      with 0 by lia.
    by eexists.
Qed.

Lemma items_statements (l : list (identity * gset pystr)) :
  sum_list_with (fun item : identity * list pystr => S (length item.2))
    (map (fun kv : identity * gset pystr => (kv.1, elements kv.2)) l)
  = length l + sum_list_with (fun kv : identity * gset pystr => size kv.2) l.
Proof.
  induction l as [|kv l IH]; [done|].
  cbn [map sum_list_with length snd]. rewrite IH.
  change (length (elements kv.2)) with (size kv.2). lia.
Qed.

(** A failure at any of the steps of the batch makes [save_mappings] raise
    and leaves the table that [init_database] found or created. *)
Lemma save_mappings_fails (now : pystr) (m : gmap identity (gset pystr))
    (b : nat) (st : store) :
  b < batch_statements m →
  save_mappings now m (Some b) st
  = (inr OperationalError, Some (init_database st)).
Proof.
  unfold batch_statements, total_names, save_mappings, get_connection.
  intros Hb.
  set (items := map (fun kv : identity * gset pystr => (kv.1, elements kv.2))
                  (map_to_list m)).
  destruct (save_batch_budget now items (init_database st) (init_database st) b)
    as [c' Hrun].
  { unfold items. apply Forall_forall. intros item Hitem.
    apply list_elem_of_In, in_map_iff in Hitem as (kv & <- & _).
    apply NoDup_elements. }
  { unfold items. rewrite items_statements, length_map_to_list. lia. }
  rewrite Hrun.
  destruct (save_batch_raises now items _ _ _ Hrun) as [Hc _].
  unfold close, rollback. cbn [committed] in *. by rewrite Hc.
Qed.

(** With that many statements left or more, the call returns. *)
Lemma save_mappings_completes (now : pystr) (m : gmap identity (gset pystr))
    (b : nat) (st : store) :
  batch_statements m ≤ b →
  ∃ count d', save_mappings now m (Some b) st = (inl count, Some d').
Proof.
  unfold batch_statements, total_names, save_mappings, get_connection,
    save_batch.
  intros Hb.
  set (items := map (fun kv : identity * gset pystr => (kv.1, elements kv.2))
                  (map_to_list m)).
  destruct (save_items_budget now items 0 (init_database st)
              (init_database st) b) as [_ Hpass].
  { unfold items. apply Forall_forall. intros item Hitem.
    apply list_elem_of_In, in_map_iff in Hitem as (kv & <- & _).
    apply NoDup_elements. }
  assert (sum_list_with (fun item : identity * list pystr =>
            S (length item.2)) items < b) as Hlt.
  { unfold items. rewrite items_statements, length_map_to_list. lia. }
  destruct Hpass as (count' & d' & Hrun); [lia|].
  rewrite bind_unfold, Hrun, bind_unfold. unfold commit. cbn [faults].
  destruct (b - _) as [|b'] eqn:Hsub; [lia|].
  simpl. by exists count', d'.
Qed.

(** A call that raises has met that failure, and leaves the same table. *)
Lemma save_mappings_raises (now : pystr) (m : gmap identity (gset pystr))
    (f : option nat) (st : store) (e : exn) (st' : store) :
  save_mappings now m f st = (inr e, st') →
  e = OperationalError ∧ st' = Some (init_database st).
Proof.
  unfold save_mappings. intros H.
  match type of H with
  | context [save_batch now ?items ?c] =>
      pose proof (save_batch_raises now items c) as Hbatch;
      destruct (save_batch now items c) as [[count|e1] c1]
  end; [done|].
  injection H as <- <-.
  destruct (Hbatch e1 c1 eq_refl) as [Hc ->].
  unfold close, rollback, get_connection in *. cbn [committed] in *.
  by rewrite Hc.
Qed.

(** The table that [init_database] leaves has the rows of the store, and
    is the store itself when the database existed. *)
Lemma init_database_observations (st : store) :
  store_rows (Some (init_database st)) = store_rows st
  ∧ load_mappings (Some (init_database st)) = load_mappings st
  ∧ get_all_mappings_count (Some (init_database st))
    = get_all_mappings_count st
  ∧ (∀ n p, get_mappings_for_locman n p (Some (init_database st))
            = get_mappings_for_locman n p st)
  ∧ (is_Some st → Some (init_database st) = st).
Proof.
  assert (store_rows (Some (init_database st)) = store_rows st) as Hrows
    by (by destruct st).
  split; [done|]. split; [|split; [|split]].
  - apply map_eq. intros k. by rewrite !load_mappings_lookup, Hrows.
  - by destruct st.
  - intros n p. by rewrite !get_mappings_for_locman_spec, Hrows.
  - by intros [t ->].
Qed.




(** *** Deleting *)

Lemma delete_mappings_identity (n p : pystr) (st : store) :
  n ≠ [] → p ≠ [] →
  deletes_exactly n p st (delete_mappings (Some n) (Some p) None st).
Proof.
  intros Hn Hp. unfold deletes_exactly, delete_mappings.
  destruct st as [t|]; [|done].
  rewrite (proj2 (truthy_true n) Hn), (proj2 (truthy_true p) Hp). done.
Qed.

Lemma delete_mappings_all (n p : cell) (st : store) :
  n = None ∨ n = Some [] ∨ p = None ∨ p = Some [] →
  deletes_all st (delete_mappings n p None st).
Proof.
  intros H. unfold deletes_all, delete_mappings.
  destruct st as [t|]; [|done].
  destruct n as [[|a n]|], p as [[|b p]|]; try done.
  by destruct H as [|[|[|]]].
Qed.

(** C7, as stated, fails: with the empty string as name, the call removes
    the rows of every identity. *)
Lemma delete_empty_name_removes_all :
  ¬ deletes_exactly [] (lit "loc.csv") sample_store
      (delete_mappings (Some []) (Some (lit "loc.csv")) None sample_store).
Proof. intros [H _]. vm_compute in H. discriminate. Qed.

(** C7, amended. With a name and a path that are both given and not empty,
    [delete_mappings] removes exactly the rows of that identity, leaves the
    others as they are and returns the number of rows removed; with an
    argument left out it removes every row, and the count of rows is then
    0. *)
Theorem delete_mappings_exact (n p : pystr) (st : store) :
  n ≠ [] → p ≠ [] →
  deletes_exactly n p st (delete_mappings (Some n) (Some p) None st)
  ∧ (∀ a : cell,
       deletes_all st (delete_mappings None a None st)
       ∧ deletes_all st (delete_mappings a None None st)
       ∧ get_all_mappings_count (delete_mappings None a None st).2 = 0
       ∧ get_all_mappings_count (delete_mappings a None None st).2 = 0).
Proof.
  intros Hn Hp. split; [by apply delete_mappings_identity|]. intros a.
  assert (∀ r : (nat + exn) * store,
            deletes_all st r → get_all_mappings_count r.2 = 0) as Hcount.
  { intros [r [t|]] [Hr _]; simpl in *; [by rewrite Hr | done]. }
  assert (deletes_all st (delete_mappings None a None st)) as H1
    by (apply delete_mappings_all; by left).
  assert (deletes_all st (delete_mappings a None None st)) as H2
    by (apply delete_mappings_all; by right; right; left).
  split; [done|]. split; [done|]. split; by apply Hcount.
Qed.

Lemma delete_mappings_exact_witness :
  lit "bolt" ≠ [] ∧ lit "loc.csv" ≠ []
  ∧ deletes_exactly (lit "bolt") (lit "loc.csv") sample_store
    (delete_mappings (Some (lit "bolt")) (Some (lit "loc.csv")) None
       sample_store)
  ∧ (∀ a : cell,
       deletes_all sample_store (delete_mappings None a None sample_store)
       ∧ deletes_all sample_store (delete_mappings a None None sample_store)
       ∧ get_all_mappings_count (delete_mappings None a None sample_store).2
         = 0
       ∧ get_all_mappings_count (delete_mappings a None None sample_store).2
         = 0).
Proof.
  split; [discriminate|]. split; [discriminate|].
  apply (delete_mappings_exact (lit "bolt") (lit "loc.csv") sample_store);
    discriminate.
Defined.

(** C10. [delete_mappings] treats the empty string as an argument left
    out: when the name or the path is [None] or empty, every row is
    removed; the deletion bears on one identity only when both are strings
    that are not empty. *)
Theorem delete_mappings_truthiness (name_loc loc_path : cell) (st : store) :
  match name_loc, loc_path with
  | Some (a :: n), Some (b :: p) =>
      deletes_exactly (a :: n) (b :: p) st
        (delete_mappings name_loc loc_path None st)
  | _, _ => deletes_all st (delete_mappings name_loc loc_path None st)
  end.
Proof.
  destruct name_loc as [[|a n]|], loc_path as [[|b p]|];
    try (apply delete_mappings_all; tauto).
  by apply delete_mappings_identity.
Qed.

(** ** More on the mapping store *)

(** *** Loading and reading *)

Lemma elem_of_names_of k (l : list mapping_row) (n : pystr) :
  n ∈ names_of k l
  ↔ ∃ r, r ∈ l ∧ (name_loc r, loc_path r) = k ∧ name_1c r = n.
Proof.
  unfold names_of, rows_of. rewrite list_elem_of_In, in_map_iff. split.
  - intros (r & <- & [Hr Hk]%filter_In). exists r.
    by rewrite list_elem_of_In, <- same_identity_true.
  - intros (r & Hr & Hk & <-). exists r. split; [done|].
    apply filter_In. by rewrite <- list_elem_of_In, same_identity_true.
Qed.

(** X13. [load_mappings] has an identity exactly when the store has a row
    for it, and then maps it to the set of the 1C names of these rows,
    whatever their timestamps. *)
Theorem load_mappings_spec (st : store) (k : identity) :
  (load_mappings st !! k = None ↔ rows_of k (store_rows st) = [])
  ∧ (∀ s, load_mappings st !! k = Some s →
       ∀ n, n ∈ s
            ↔ ∃ r, r ∈ store_rows st
                   ∧ (name_loc r, loc_path r) = k ∧ name_1c r = n).
Proof.
  rewrite load_mappings_lookup. split.
  - unfold names_of. by destruct (rows_of k (store_rows st)).
  - intros s Hs n. rewrite <- elem_of_names_of.
    destruct (names_of k (store_rows st)) as [|x l]; [done|].
    injection Hs as <-.
    exact (elem_of_list_to_set (C:=gset pystr) n (x :: l)).
Qed.

(** X14. [get_mappings_for_locman] agrees with [load_mappings]: it returns
    the set that [load_mappings] has for the identity, and the empty set
    when [load_mappings] does not have the identity. *)
Theorem get_mappings_agrees_with_load (n p : pystr) (st : store) :
  get_mappings_for_locman n p st = default ∅ (load_mappings st !! (n, p)).
Proof.
  rewrite get_mappings_for_locman_spec, load_mappings_lookup.
  by destruct (names_of (n, p) (store_rows st)).
Qed.

Lemma load_after_save_lookup (now : pystr) (m : gmap identity (gset pystr))
    (st : store) (k : identity) :
  load_mappings (save_mappings now m None st).2 !! k
  = match m !! k with
    | Some s => if decide (s = ∅) then None else Some s
    | None => load_mappings st !! k
    end.
Proof.
  destruct (save_mappings_ok now m st) as (d' & -> & Hin & Hout).
  rewrite !load_mappings_lookup. cbn [snd store_rows].
  destruct (m !! k) as [s|] eqn:Hk.
  - rewrite (Hin k s Hk). destruct (decide (s = ∅)) as [->|Hs].
    + by rewrite elements_empty.
    + destruct (elements s) as [|x l] eqn:He.
      { by apply elements_empty_inv, leibniz_equiv in He. }
      change (Some (list_to_set (x :: l)) = Some s).
      by rewrite <- He, list_to_set_elements_L.
  - unfold names_of. by rewrite (Hout k Hk).
Qed.

(** X15. A save that meets no failure replaces what is loaded for the
    identities of the dictionary (those given the empty set disappear) and
    keeps what is loaded for every other identity, whatever the store
    held. *)
Theorem load_after_save (now : pystr) (m : gmap identity (gset pystr))
    (st : store) (k : identity) :
  load_mappings (save_mappings now m None st).2 !! k
  = match m !! k with
    | Some s => if decide (s = ∅) then None else Some s
    | None => load_mappings st !! k
    end.
Proof. apply load_after_save_lookup. Qed.

(** X16. Saving the same dictionary twice in a row changes nothing more:
    the second call returns the same count and the same dictionary is
    loaded afterwards. *)
Theorem save_twice (now1 now2 : pystr) (m : gmap identity (gset pystr))
    (st : store) :
  let st1 := (save_mappings now1 m None st).2 in
  (save_mappings now2 m None st1).1 = (save_mappings now1 m None st).1
  ∧ load_mappings (save_mappings now2 m None st1).2 = load_mappings st1.
Proof.
  cbv zeta. split.
  - destruct (save_mappings_ok now1 m st) as (d1 & -> & _). cbn [fst snd].
    by destruct (save_mappings_ok now2 m (Some d1)) as (d2 & -> & _).
  - apply map_eq. intros k. rewrite !load_after_save_lookup.
    by destruct (m !! k).
Qed.

(** *** Deleting *)

Lemma execute_cases {A} (stmt : table → (A + exn) * table) (c : conn) :
  (∀ t, ∃ a t1, stmt t = (inl a, t1)) →
  execute stmt c = (inr OperationalError, c)
  ∨ ∃ a t1, execute stmt c
            = (inl a, Conn t1 (committed c) (pred <$> faults c)).
Proof.
  intros Hstmt. unfold execute. destruct (Hstmt (db c)) as (a & t1 & Hs).
  destruct (faults c) as [[|x]|]; [by left| |]; right; rewrite Hs; eauto.
Qed.

Lemma delete_statement_cases (name_loc loc_path : cell) (c : conn) :
  let stmt := match name_loc, loc_path with
              | Some n, Some p =>
                  if truthy n && truthy p
                  then execute (sql_delete_identity (n, p))
                  else execute sql_delete_all
              | _, _ => execute sql_delete_all
              end in
  stmt c = (inr OperationalError, c)
  ∨ ∃ a t1, stmt c = (inl a, Conn t1 (committed c) (pred <$> faults c)).
Proof.
  cbv zeta.
  destruct name_loc as [n|], loc_path as [p|];
    try destruct (truthy n && truthy p);
    apply execute_cases; intros t;
    unfold sql_delete_identity, sql_delete_all; eauto.
Qed.

(** X17. [delete_mappings] is all or nothing: when it raises, the
    exception is the failure of the storage layer and the store is as it
    was; on a database that does not exist it returns 0 and does not
    create it. *)
Theorem delete_failure_keeps_store (name_loc loc_path : cell)
    (f : option nat) (st : store) :
  (∀ e st', delete_mappings name_loc loc_path f st = (inr e, st') →
            e = OperationalError ∧ st' = st)
  ∧ (∀ t, delete_mappings name_loc loc_path (Some 0) (Some t)
          = (inr OperationalError, Some t))
  ∧ delete_mappings name_loc loc_path f None = (inl 0, None).
Proof.
  split; [|split; [|done]].
  2:{ intros t. unfold delete_mappings.
      by destruct name_loc as [n|], loc_path as [p|];
        try destruct (truthy n && truthy p). }
  intros e st'. unfold delete_mappings.
  destruct st as [t|]; [|done].
  rewrite bind_unfold.
  destruct (delete_statement_cases name_loc loc_path (get_connection t f))
    as [->|(k & t1 & ->)].
  - by intros [= <- <-].
  - rewrite bind_unfold. unfold commit. simpl.
    destruct (pred <$> f) as [[|x]|]; simpl; try done.
    by intros [= <- <-].
Qed.

(** X18. After [delete_mappings] with a name and a path that are not empty,
    the identity is no longer loaded and the rest of what is loaded is the
    same; the value returned is the number of rows that went away. After a
    deletion of everything nothing is loaded. *)
Theorem load_after_delete (n p : pystr) (st : store) :
  n ≠ [] → p ≠ [] →
  let r := delete_mappings (Some n) (Some p) None st in
  load_mappings r.2 = delete (n, p) (load_mappings st)
  ∧ get_mappings_for_locman n p r.2 = ∅
  ∧ (∃ count, r.1 = inl count
              ∧ get_all_mappings_count r.2 + count = get_all_mappings_count st)
  ∧ load_mappings (delete_mappings None None None st).2 = ∅.
Proof.
  intros Hn Hp. cbv zeta.
  destruct (delete_mappings_identity n p st Hn Hp) as [Hrows Hcount].
  assert (∀ k, names_of k (store_rows
                             (delete_mappings (Some n) (Some p) None st).2)
               = if decide (k = (n, p)) then []
                 else names_of k (store_rows st)) as Hnames.
  { intros k. unfold names_of. rewrite Hrows.
    destruct (decide (k = (n, p))) as [->|Hne].
    - by rewrite rows_of_deleted.
    - by rewrite rows_of_deleted_other. }
  split; [|split; [|split]].
  - apply map_eq. intros k. rewrite load_mappings_lookup, Hnames.
    destruct (decide (k = (n, p))) as [->|Hne].
    + by rewrite lookup_delete_eq.
    + by rewrite lookup_delete_ne, load_mappings_lookup.
  - by rewrite get_mappings_for_locman_spec, Hnames, decide_True.
  - exists (length (rows_of (n, p) (store_rows st))). split; [done|].
    assert (∀ st0, get_all_mappings_count st0 = length (store_rows st0))
      as Hc by (by intros [?|]).
    rewrite !Hc, Hrows, Nat.add_comm. apply List.filter_length.
  - destruct (delete_mappings_all None None st) as [Hall _]; [by left|].
    apply map_eq. intros k.
    by rewrite load_mappings_lookup, Hall, lookup_empty.
Qed.

Lemma load_after_delete_witness :
  let r := delete_mappings (Some (lit "bolt")) (Some (lit "loc.csv")) None
             sample_store in
  lit "bolt" ≠ [] ∧ lit "loc.csv" ≠ []
  ∧ load_mappings r.2 = delete (lit "bolt", lit "loc.csv")
                          (load_mappings sample_store)
  ∧ get_mappings_for_locman (lit "bolt") (lit "loc.csv") r.2 = ∅
  ∧ (∃ count, r.1 = inl count
              ∧ get_all_mappings_count r.2 + count
                = get_all_mappings_count sample_store)
  ∧ load_mappings (delete_mappings None None None sample_store).2 = ∅.
Proof.
  intros r. split; [discriminate|]. split; [discriminate|].
  apply (load_after_delete (lit "bolt") (lit "loc.csv") sample_store);
    discriminate.
Defined.

(** *** The constraints of the table *)

Lemma same_triple_true k n r :
  same_triple k n r = true ↔ triple_of r = (k.1, k.2, n).
Proof.
  unfold same_triple, triple_of.
  rewrite andb_true_iff, same_identity_true, bool_decide_eq_true.
  destruct k as [a b]. simpl. split.
  - by intros [[= -> ->] ->].
  - by intros [= -> -> ->].
Qed.

Lemma table_ok_filter (f : mapping_row → bool) (t : table) :
  table_ok t → table_ok (Table (List.filter f (rows t)) (sqlite_sequence t)).
Proof.
  intros (Htr & Hid & Hseq). pose proof (sublist_filter_bool f (rows t)) as Hs.
  split; [|split]; simpl.
  - eapply sublist_NoDup; [exact Htr|]. by apply fmap_sublist.
  - eapply sublist_NoDup; [exact Hid|]. by apply fmap_sublist.
  - apply Forall_forall. intros r Hr%list_elem_of_In%filter_In.
    destruct Hr as [Hr%list_elem_of_In _].
    by apply (proj1 (Forall_forall _ _) Hseq).
Qed.

Lemma table_ok_delete_identity k t :
  table_ok t → table_ok (sql_delete_identity k t).2.
Proof. apply table_ok_filter. Qed.

Lemma table_ok_delete_all t : table_ok t → table_ok (sql_delete_all t).2.
Proof.
  intros _. repeat split; simpl; constructor.
Qed.

Lemma table_ok_insert k n created updated t :
  table_ok t → table_ok (sql_insert k n created updated t).2.
Proof.
  intros (Htr & Hid & Hseq). unfold sql_insert.
  destruct (existsb (same_triple k n) (rows t)) eqn:Hex; [done|].
  split; [|split]; simpl; rewrite ?fmap_app; simpl.
  - apply NoDup_app. split; [done|]. split; [|apply NoDup_singleton].
    intros x (r & -> & Hr)%list_elem_of_fmap Hx%list_elem_of_singleton.
    apply not_true_iff_false in Hex. apply Hex, existsb_exists.
    exists r. by rewrite <- list_elem_of_In, same_triple_true.
  - apply NoDup_app. split; [done|]. split; [|apply NoDup_singleton].
    intros x (r & -> & Hr)%list_elem_of_fmap Hx%list_elem_of_singleton.
    pose proof (proj1 (Forall_forall _ _) Hseq r Hr) as Hle. simpl in Hle. lia.
  - apply Forall_app. split.
    + eapply Forall_impl; [exact Hseq|]. intros r Hr. simpl in *. lia.
    + constructor; [simpl; lia | constructor].
Qed.

Lemma fmap_map_same {A B} (proj : A → B) (g : A → A) (l : list A) :
  (∀ x, proj (g x) = proj x) → proj <$> map g l = proj <$> l.
Proof.
  intros Hg. induction l as [|x l IH]; [done|].
  cbn [map]. by rewrite !fmap_cons, IH, Hg.
Qed.

Lemma table_ok_update updated k n t :
  table_ok t → table_ok (sql_update_timestamp updated k n t).2.
Proof.
  intros (Htr & Hid & Hseq). unfold sql_update_timestamp. simpl.
  set (g := fun r => if same_triple k n r
                     then MappingRow (row_id r) (name_loc r) (loc_path r)
                            (name_1c r) (created_at r) updated
                     else r).
  assert (∀ r, triple_of (g r) = triple_of r ∧ row_id (g r) = row_id r) as Hg.
  { intros r. unfold g. by destruct (same_triple k n r). }
  assert (triple_of <$> map g (rows t) = triple_of <$> rows t) as Ht
    by (apply fmap_map_same; intros; apply Hg).
  assert (row_id <$> map g (rows t) = row_id <$> rows t) as Hi
    by (apply fmap_map_same; intros; apply Hg).
  split; [|split]; simpl.
  - by rewrite Ht.
  - by rewrite Hi.
  - apply Forall_forall. intros r' (r & <- & Hr)%list_elem_of_In%in_map_iff.
    destruct (Hg r) as [_ ->].
    by apply (proj1 (Forall_forall _ _) Hseq), list_elem_of_In.
Qed.

Lemma preserves_ok_ret {A} (a : A) : preserves_ok (mret a : M A).
Proof. by intros c. Qed.

Lemma preserves_ok_execute {A} (stmt : table → (A + exn) * table) :
  (∀ t, table_ok t → table_ok (stmt t).2) → preserves_ok (execute stmt).
Proof.
  intros Hstmt c Hdb Hcm. unfold execute.
  destruct (faults c) as [[|x]|]; [done| |];
    specialize (Hstmt (db c) Hdb); by destruct (stmt (db c)).
Qed.

Lemma preserves_ok_commit : preserves_ok commit.
Proof. intros c Hdb Hcm. unfold commit. by destruct (faults c) as [[|x]|]. Qed.

Lemma preserves_ok_bind {A B} (m : M A) (k : A → M B) :
  preserves_ok m → (∀ a, preserves_ok (k a)) → preserves_ok (m ≫= k).
Proof.
  intros Hm Hk c Hdb Hcm. rewrite bind_unfold.
  destruct (Hm c Hdb Hcm) as [Hdb1 Hcm1].
  destruct (m c) as [[a|e] c1]; simpl in *; [by apply Hk | done].
Qed.

Lemma preserves_ok_except {A} (m h : M A) :
  preserves_ok m → preserves_ok h → preserves_ok (except_integrity m h).
Proof.
  intros Hm Hh c Hdb Hcm. unfold except_integrity.
  destruct (Hm c Hdb Hcm) as [Hdb1 Hcm1].
  destruct (m c) as [[a|[]] c1]; simpl in *; try done. by apply Hh.
Qed.

Lemma preserves_ok_for_each {A B} (body : B → A → M B) (l : list A) :
  (∀ b x, preserves_ok (body b x)) → ∀ b, preserves_ok (for_each body l b).
Proof.
  intros Hbody. induction l as [|x l IH]; intros b.
  - apply preserves_ok_ret.
  - apply preserves_ok_bind; [apply Hbody | apply IH].
Qed.

Lemma preserves_ok_insert k n created updated :
  preserves_ok (execute (sql_insert k n created updated)).
Proof. apply preserves_ok_execute. intros t. apply table_ok_insert. Qed.

Lemma preserves_ok_update updated k n :
  preserves_ok (execute (sql_update_timestamp updated k n)).
Proof. apply preserves_ok_execute. intros t. apply table_ok_update. Qed.

Lemma preserves_ok_delete_identity k :
  preserves_ok (execute (sql_delete_identity k)).
Proof. apply preserves_ok_execute. intros t. apply table_ok_delete_identity. Qed.

Lemma preserves_ok_delete_all : preserves_ok (execute sql_delete_all).
Proof. apply preserves_ok_execute. apply table_ok_delete_all. Qed.

#[local] Hint Resolve preserves_ok_ret preserves_ok_commit preserves_ok_bind
  preserves_ok_except preserves_ok_for_each preserves_ok_insert
  preserves_ok_update preserves_ok_delete_identity preserves_ok_delete_all
  : store.

Lemma preserves_ok_save_batch now items : preserves_ok (save_batch now items).
Proof. unfold save_batch, save_identity, save_name. eauto 12 with store. Qed.

(** X19. [save_mappings] and [delete_mappings] keep the constraints of the
    table whether they succeed or fail: no two rows with the same
    (name_loc, loc_path, name_1c), no two rows with the same id, no id above
    the AUTOINCREMENT counter. *)
Theorem store_constraints_kept (now : pystr) (m : gmap identity (gset pystr))
    (name_loc loc_path : cell) (f : option nat) (st : store) :
  store_ok st →
  store_ok (save_mappings now m f st).2
  ∧ store_ok (delete_mappings name_loc loc_path f st).2.
Proof.
  intros Hst.
  assert (table_ok (init_database st)) as Hinit.
  { destruct st as [t|]; [done|]. repeat split; simpl; constructor. }
  split.
  - unfold save_mappings.
    match goal with
    | |- context [save_batch now ?items ?c] =>
        destruct (preserves_ok_save_batch now items c Hinit Hinit) as [_ Hcm];
        destruct (save_batch now items c) as [[count|e] c1]
    end; done.
  - unfold delete_mappings. destruct st as [t|]; [|done].
    match goal with
    | |- context [let '(_, _) := ?body ?c in _] =>
        assert (preserves_ok body) as Hbody;
        [|destruct (Hbody c Hst Hst) as [_ Hcm];
          by destruct (body c) as [r c1]]
    end.
    destruct name_loc as [n|], loc_path as [p|];
      try destruct (truthy n && truthy p); eauto with store.
Qed.

Lemma store_constraints_kept_witness :
  store_ok sample_store
  ∧ store_ok (save_mappings t1 sample_first (Some 3) sample_store).2
  ∧ store_ok (delete_mappings (Some (lit "bolt")) None (Some 3) sample_store).2.
Proof.
  assert (store_ok sample_store) as Hok.
  { split; [|split]; simpl.
    - apply (bool_decide_unpack _). by vm_compute.
    - apply (bool_decide_unpack _). by vm_compute.
    - repeat constructor; simpl; lia. }
  split; [exact Hok|].
  exact (store_constraints_kept t1 sample_first (Some (lit "bolt")) None
           (Some 3) sample_store Hok).
Defined.

(** *** The rows that a save writes *)

Lemma save_names_rows now k names : ∀ count d cm,
  NoDup names →
  (∀ r, r ∈ rows d → (name_loc r, loc_path r) = k → name_1c r ∉ names) →
  ∃ new s,
    for_each (save_name now k) names count (Conn d cm None)
    = (inl (count + length names), Conn (Table (rows d ++ new) s) cm None)
    ∧ length new = length names
    ∧ Forall (fun r => (name_loc r, loc_path r) = k
                       ∧ created_at r = now ∧ updated_at r = now) new.
Proof.
  induction names as [|n names IH]; intros count d cm Hnd Hfresh.
  - exists [], (sqlite_sequence d). simpl. rewrite app_nil_r, Nat.add_0_r.
    by destruct d.
  - apply NoDup_cons in Hnd as [Hn Hnd].
    rewrite for_each_cons, save_name_fresh.
    2:{ apply no_triple_of_fresh_name. intros r Hr Hk Heq.
        apply (Hfresh r Hr Hk). rewrite Heq. by left. }
    edestruct (IH (S count)) as (new & s & -> & Hlen & Hnew); [done| |].
    { simpl. intros r [Hr| ->%list_elem_of_singleton]%elem_of_app Hk.
      - intros Hin. apply (Hfresh r Hr Hk). by right.
      - done. }
    eexists (_ :: new), s. simpl. rewrite <- app_assoc. simpl.
    split; [by rewrite Nat.add_succ_r|]. split; [by rewrite Hlen|].
    constructor; [by destruct k | done].
Qed.

Lemma save_identity_rows now count k names d cm :
  NoDup names →
  ∃ new s,
    save_identity now count (k, names) (Conn d cm None)
    = (inl (count + length names),
       Conn (Table (List.filter (fun r => negb (same_identity k r)) (rows d)
                    ++ new) s) cm None)
    ∧ length new = length names
    ∧ Forall (fun r => (name_loc r, loc_path r) = k
                       ∧ created_at r = now ∧ updated_at r = now) new.
Proof.
  intros Hnd. unfold save_identity. rewrite bind_unfold. simpl.
  edestruct (save_names_rows now k names count) as (new & s & -> & Hlen & Hk);
    [done| |].
  { simpl. intros r Hr%list_elem_of_In%filter_In Hid.
    destruct Hr as [_ Hr]. apply negb_true_iff in Hr.
    apply same_identity_true in Hid. congruence. }
  by exists new, s.
Qed.

Lemma sum_list_with_ext_in {A} (f g : A → nat) (l : list A) :
  (∀ x, x ∈ l → f x = g x) → sum_list_with f l = sum_list_with g l.
Proof.
  intros H. induction l as [|x l IH]; [done|]. simpl.
  rewrite (H x) by by left. rewrite IH; [done|].
  intros y Hy. apply H. by right.
Qed.

Lemma save_items_rows now (items : list (identity * list pystr)) :
  ∀ count d cm,
  NoDup items.*1 →
  Forall (fun item => NoDup item.2) items →
  ∃ d',
    for_each (save_identity now) items count (Conn d cm None)
    = (inl (count + sum_list_with (fun item => length item.2) items),
       Conn d' cm None)
    ∧ length (rows d')
      + sum_list_with (fun item => length (rows_of item.1 (rows d))) items
      = length (rows d) + sum_list_with (fun item => length item.2) items
    ∧ Forall (fun r => (name_loc r, loc_path r) ∈ items.*1 →
                       created_at r = now ∧ updated_at r = now) (rows d')
    ∧ (∀ k, k ∉ items.*1 → rows_of k (rows d') = rows_of k (rows d)).
Proof.
  induction items as [|[k names] items IH]; intros count d cm Hkeys Hsets.
  - exists d. simpl. rewrite !Nat.add_0_r. split; [done|]. split; [done|].
    split; [|done]. apply Forall_forall. by intros r _ ?%elem_of_nil.
  - rewrite fmap_cons in Hkeys. apply NoDup_cons in Hkeys as [Hk Hkeys].
    apply Forall_cons in Hsets as [Hnames Hsets].
    rewrite for_each_cons.
    destruct (save_identity_rows now count k names d cm Hnames)
      as (new & s & -> & Hlen & Hnew).
    set (d1 := Table (List.filter (fun r => negb (same_identity k r)) (rows d)
                      ++ new) s).
    assert (Forall (fun r => (name_loc r, loc_path r) = k) new) as Hnewk.
    { eapply Forall_impl; [exact Hnew|]. by intros r [? _]. }
    assert (∀ k', k' ≠ k → rows_of k' (rows d1) = rows_of k' (rows d))
      as Hother.
    { intros k' Hne. unfold d1. simpl.
      by rewrite rows_of_app, (rows_of_none k k' new), app_nil_r,
        rows_of_deleted_other. }
    assert (rows_of k (rows d1) = new) as Hmine.
    { unfold d1. simpl.
      by rewrite rows_of_app, rows_of_deleted, (rows_of_all k new). }
    destruct (IH (count + length names) d1 cm Hkeys Hsets)
      as (d' & -> & Htotal & Hstamp & Hout).
    exists d'. split; [simpl; by rewrite Nat.add_assoc|]. split; [|split].
    + simpl.
      rewrite (sum_list_with_ext_in
                 (fun item => length (rows_of item.1 (rows d)))
                 (fun item => length (rows_of item.1 (rows d1)))).
      2:{ intros [k' names'] Hitem. simpl. rewrite Hother; [done|].
          intros ->. apply Hk. apply list_elem_of_fmap. by exists (k, names'). }
      assert (length (rows d1) + length (rows_of k (rows d))
              = length (rows d) + length names) as Hd1.
      { unfold d1. simpl. rewrite length_app, Hlen.
        pose proof (List.filter_length (same_identity k) (rows d)).
        unfold rows_of. lia. }
      lia.
    + apply Forall_forall. intros r Hr Hin.
      destruct (decide ((name_loc r, loc_path r) = k)) as [Hrk|Hrk].
      * assert (r ∈ rows_of k (rows d')) as Hr'.
        { unfold rows_of. apply list_elem_of_In, filter_In.
          by rewrite <- list_elem_of_In, same_identity_true. }
        rewrite (Hout k Hk), Hmine in Hr'.
        by destruct (proj1 (Forall_forall _ _) Hnew r Hr') as (_ & ? & ?).
      * apply (proj1 (Forall_forall _ _) Hstamp r Hr).
        rewrite fmap_cons in Hin. by apply elem_of_cons in Hin as [|].
    + intros k0 Hk0. rewrite fmap_cons in Hk0.
      apply not_elem_of_cons in Hk0 as [Hne Hk0].
      rewrite Hout by done. by apply Hother.
Qed.

Lemma items_sum_keys {A} (g : identity → nat) (l : list (identity * A))
    (h : A → list pystr) :
  sum_list_with (fun item : identity * list pystr => g item.1)
    (map (fun kv : identity * A => (kv.1, h kv.2)) l)
  = sum_list_with (fun kv : identity * A => g kv.1) l.
Proof.
  induction l as [|kv l IH]; [done|].
  cbn [map sum_list_with]. by rewrite IH.
Qed.

Lemma save_mappings_rows (now : pystr) (m : gmap identity (gset pystr))
    (st : store) :
  ∃ d',
    save_mappings now m None st
    = (inl (sum_list_with (fun kv : identity * gset pystr => size kv.2)
              (map_to_list m)), Some d')
    ∧ length (rows d')
      + sum_list_with
          (fun kv : identity * gset pystr =>
             length (rows_of kv.1 (store_rows st))) (map_to_list m)
      = length (store_rows st)
        + sum_list_with (fun kv : identity * gset pystr => size kv.2)
            (map_to_list m)
    ∧ Forall (fun r => is_Some (m !! (name_loc r, loc_path r)) →
                       created_at r = now ∧ updated_at r = now) (rows d').
Proof.
  unfold save_mappings, save_batch, get_connection.
  set (items := map (fun kv : identity * gset pystr => (kv.1, elements kv.2))
                  (map_to_list m)).
  assert (items.*1 = (map_to_list m).*1) as Hfst by apply items_fst.
  destruct (save_items_rows now items 0 (init_database st) (init_database st))
    as (d' & Hrun & Htotal & Hstamp & _).
  { rewrite Hfst. apply NoDup_fst_map_to_list. }
  { unfold items. apply Forall_forall. intros item Hitem.
    apply list_elem_of_In, in_map_iff in Hitem as (kv & <- & _).
    apply NoDup_elements. }
  rewrite bind_unfold, Hrun. simpl. exists d'.
  unfold items in Htotal.
  rewrite items_sum, rows_init_database in Htotal.
  rewrite (items_sum_keys
             (fun k => length (rows_of k (store_rows st)))) in Htotal.
  split; [f_equal; f_equal; apply items_sum|]. split; [done|].
  eapply Forall_impl; [exact Hstamp|]. intros r Hr [x Hx]. apply Hr.
  rewrite Hfst. apply list_elem_of_fmap.
  exists ((name_loc r, loc_path r), x). split; [done|].
  by apply elem_of_map_to_list.
Qed.

(** X20. The value that [save_mappings] returns is the number of rows it
    wrote: the count of rows after the call is the count before it, less
    the rows that the identities of the dictionary had, plus the value
    returned. On a store without rows the count after the call is the value
    returned. *)
Theorem save_count_accounting (now : pystr) (m : gmap identity (gset pystr))
    (st : store) :
  ∃ count,
    (save_mappings now m None st).1 = inl count
    ∧ get_all_mappings_count (save_mappings now m None st).2
      + sum_list_with
          (fun kv : identity * gset pystr =>
             length (rows_of kv.1 (store_rows st))) (map_to_list m)
      = get_all_mappings_count st + count
    ∧ (store_rows st = [] →
       get_all_mappings_count (save_mappings now m None st).2 = count).
Proof.
  destruct (save_mappings_rows now m st) as (d' & -> & Htotal & _).
  eexists. split; [done|]. cbn [snd get_all_mappings_count].
  assert (get_all_mappings_count st = length (store_rows st)) as ->
    by (by destruct st).
  split; [done|]. intros Hfresh. rewrite Hfresh in Htotal.
  assert (∀ l : list (identity * gset pystr),
            sum_list_with (fun kv => length (rows_of kv.1 [])) l = 0) as Hz
    by (induction l; simpl; auto).
  rewrite Hz in Htotal. simpl in Htotal. lia.
Qed.

(** X21. After a save that meets no failure, every row of an identity of
    the dictionary carries the time of that save as [created_at] and as
    [updated_at]: the rows are written anew, an earlier [created_at] is not
    kept. *)
Theorem save_stamps_rows (now : pystr) (m : gmap identity (gset pystr))
    (st : store) (r : mapping_row) :
  r ∈ store_rows (save_mappings now m None st).2 →
  is_Some (m !! (name_loc r, loc_path r)) →
  created_at r = now ∧ updated_at r = now.
Proof.
  destruct (save_mappings_rows now m st) as (d' & -> & _ & Hstamp).
  cbn [snd store_rows]. intros Hr.
  by apply (proj1 (Forall_forall _ _) Hstamp r Hr).
Qed.

Lemma save_stamps_rows_witness :
  let r := MappingRow 4 (lit "bolt") (lit "loc.csv") (lit "Bolt M6") t1 t1 in
  r ∈ store_rows (save_mappings t1 sample_first None sample_store).2
  ∧ is_Some (sample_first !! (name_loc r, loc_path r))
  ∧ created_at r = t1 ∧ updated_at r = t1.
Proof.
  intros r.
  assert (r ∈ store_rows (save_mappings t1 sample_first None sample_store).2)
    as Hr by (vm_compute; repeat constructor).
  assert (is_Some (sample_first !! (name_loc r, loc_path r))) as Hs
    by (vm_compute; eauto).
  split; [exact Hr|]. split; [exact Hs|].
  exact (save_stamps_rows t1 sample_first sample_store r Hr Hs).
Defined.

(** *** Counting *)

Lemma total_names_insert (m : gmap identity (gset pystr)) k s :
  total_names (<[k := s]> m) + size (default ∅ (m !! k))
  = size s + total_names m.
Proof.
  unfold total_names. destruct (m !! k) as [y|] eqn:Hk.
  - change (default ∅ (Some y)) with y.
    rewrite <- insert_delete_eq.
    rewrite map_to_list_insert by apply lookup_delete_eq.
    rewrite <- (map_to_list_delete m k y Hk). cbn [sum_list_with snd]. lia.
  - change (default ∅ None) with (∅ : gset pystr).
    rewrite map_to_list_insert by done. rewrite size_empty.
    cbn [sum_list_with snd]. lia.
Qed.

Lemma load_row_insert (m : gmap identity (gset pystr)) r :
  load_row m r
  = <[(name_loc r, loc_path r)
      := default ∅ (m !! (name_loc r, loc_path r)) ∪ {[name_1c r]}]> m.
Proof.
  apply map_eq. intros k. rewrite load_row_lookup. unfold same_identity.
  case_bool_decide as Hk.
  - subst k. by rewrite lookup_insert_eq.
  - by rewrite lookup_insert_ne.
Qed.

Lemma total_names_load_row (m : gmap identity (gset pystr)) r :
  name_1c r ∉ default ∅ (m !! (name_loc r, loc_path r)) →
  total_names (load_row m r) = S (total_names m).
Proof.
  intros Hn. rewrite load_row_insert.
  pose proof (total_names_insert m (name_loc r, loc_path r)
                (default ∅ (m !! (name_loc r, loc_path r)) ∪ {[name_1c r]}))
    as Hins.
  rewrite size_union, size_singleton in Hins; [lia|].
  intros x Hx ->%elem_of_singleton. by apply Hn.
Qed.

Lemma total_names_fold (l : list mapping_row) :
  ∀ m : gmap identity (gset pystr),
  NoDup (triple_of <$> l) →
  (∀ r, r ∈ l → name_1c r ∉ default ∅ (m !! (name_loc r, loc_path r))) →
  total_names (fold_left load_row l m) = total_names m + length l.
Proof.
  induction l as [|r l IH]; intros m Hnd Hfresh.
  - simpl. lia.
  - rewrite fmap_cons in Hnd. apply NoDup_cons in Hnd as [Hr Hnd].
    simpl fold_left. rewrite IH; [| done |].
    + rewrite total_names_load_row by (apply Hfresh; by left). simpl. lia.
    + intros r' Hr'. rewrite load_row_lookup. unfold same_identity.
      case_bool_decide as Hk; [|apply Hfresh; by right].
      simpl. intros [Hin|Heq%elem_of_singleton]%elem_of_union.
      * by apply (Hfresh r'); [right|].
      * apply Hr. apply list_elem_of_fmap. exists r'. split; [|done].
        unfold triple_of. injection Hk as H1 H2. by rewrite H1, H2, Heq.
Qed.

(** X22. On a store that respects the UNIQUE constraint,
    [get_all_mappings_count] is the number of names in the dictionary that
    [load_mappings] returns, all identities together. *)
Theorem count_is_total_loaded (st : store) :
  store_ok st →
  get_all_mappings_count st = total_names (load_mappings st).
Proof.
  destruct st as [t|]; simpl.
  - intros (Htr & _ & _). unfold order_by_updated_at_desc.
    pose proof (merge_sort_Permutation updated_desc (rows t)) as Hp.
    rewrite total_names_fold.
    + unfold total_names. rewrite map_to_list_empty. simpl.
      by rewrite Hp.
    + by rewrite Hp.
    + intros r _. rewrite lookup_empty. simpl. apply not_elem_of_empty.
  - intros _. unfold total_names. by rewrite map_to_list_empty.
Qed.

Lemma count_is_total_loaded_witness :
  store_ok sample_store
  ∧ get_all_mappings_count sample_store
    = total_names (load_mappings sample_store).
Proof.
  assert (store_ok sample_store) as Hok.
  { split; [|split]; simpl.
    - apply (bool_decide_unpack _). by vm_compute.
    - apply (bool_decide_unpack _). by vm_compute.
    - repeat constructor; simpl; lia. }
  split; [exact Hok|]. exact (count_is_total_loaded sample_store Hok).
Defined.

(** *** Runs that return in spite of a failure plan *)

Lemma fault_insensitive_ret {A} (a : A) : fault_insensitive (mret a : M A).
Proof. intros d cm f r c' [= <- <-] _. done. Qed.

Lemma fault_insensitive_execute {A} (stmt : table → (A + exn) * table) :
  fault_insensitive (execute stmt).
Proof.
  intros d cm f r c'. unfold execute. simpl.
  destruct f as [[|x]|]; [by intros [= <- _] ? | |];
    destruct (stmt d) as [r1 t1]; by intros [= <- <-] _.
Qed.

Lemma fault_insensitive_commit : fault_insensitive commit.
Proof.
  intros d cm f r c'. unfold commit. simpl.
  destruct f as [[|x]|]; [by intros [= <- _] ? | |]; by intros [= <- <-] _.
Qed.

Lemma fault_insensitive_bind {A B} (m : M A) (k : A → M B) :
  fault_insensitive m → (∀ a, fault_insensitive (k a)) →
  fault_insensitive (m ≫= k).
Proof.
  intros Hm Hk d cm f r c'. rewrite !bind_unfold.
  destruct (m (Conn d cm f)) as [[a|e] [d1 cm1 f1]] eqn:Hrun.
  - intros Hka Hr. rewrite (Hm _ _ _ _ _ Hrun) by done. simpl.
    by apply (Hk a d1 cm1 f1).
  - intros [= <- <-] Hr.
    assert (e ≠ OperationalError) as He by (intros ->; by apply Hr).
    rewrite (Hm _ _ _ _ _ Hrun); [done|]. by intros [= ->].
Qed.

Lemma fault_insensitive_except {A} (m h : M A) :
  fault_insensitive m → fault_insensitive h →
  fault_insensitive (except_integrity m h).
Proof.
  intros Hm Hh d cm f r c'. unfold except_integrity.
  destruct (m (Conn d cm f)) as [[a|[]] [d1 cm1 f1]] eqn:Hrun.
  - intros [= <- <-] Hr. by rewrite (Hm _ _ _ _ _ Hrun).
  - intros Hrun' Hr. rewrite (Hm _ _ _ _ _ Hrun) by done. simpl.
    by apply (Hh d1 cm1 f1).
  - by intros [= <- <-] Hr.
Qed.

Lemma fault_insensitive_for_each {A B} (body : B → A → M B) (l : list A) :
  (∀ b x, fault_insensitive (body b x)) →
  ∀ b, fault_insensitive (for_each body l b).
Proof.
  intros Hbody. induction l as [|x l IH]; intros b.
  - apply fault_insensitive_ret.
  - apply fault_insensitive_bind; [apply Hbody | apply IH].
Qed.

#[local] Hint Resolve fault_insensitive_ret fault_insensitive_execute
  fault_insensitive_commit fault_insensitive_bind fault_insensitive_except
  fault_insensitive_for_each : store.

Lemma fault_insensitive_save_batch now items :
  fault_insensitive (save_batch now items).
Proof. unfold save_batch, save_identity, save_name. eauto 12 with store. Qed.

(** X23. A failure plan either makes the call raise or has no effect: when
    [save_mappings] or [delete_mappings] returns a value, the value and the
    store left behind are those of the run in which the storage layer never
    fails. *)
Theorem returns_as_without_failure (now : pystr)
    (m : gmap identity (gset pystr)) (name_loc loc_path : cell)
    (f : option nat) (st : store) :
  (∀ count st', save_mappings now m f st = (inl count, st') →
                save_mappings now m None st = (inl count, st'))
  ∧ (∀ count st', delete_mappings name_loc loc_path f st = (inl count, st') →
                  delete_mappings name_loc loc_path None st = (inl count, st')).
Proof.
  split; intros count st'.
  - unfold save_mappings, get_connection.
    match goal with
    | |- context [save_batch now ?items (Conn ?d ?cm f)] =>
        pose proof (fault_insensitive_save_batch now items d cm f) as Hfi;
        destruct (save_batch now items (Conn d cm f)) as [[c|e] c1]
    end; [|done].
    intros [= -> <-]. by rewrite (Hfi _ _ eq_refl).
  - unfold delete_mappings, get_connection. destruct st as [t|]; [|done].
    match goal with
    | |- context [let '(_, _) := ?body (Conn t t f) in _] =>
        assert (fault_insensitive body) as Hfi;
        [|specialize (Hfi t t f);
          destruct (body (Conn t t f)) as [r c1];
          intros [= -> <-]; by rewrite (Hfi _ _ eq_refl)]
    end.
    destruct name_loc as [n|], loc_path as [p|];
      try destruct (truthy n && truthy p); eauto with store.
Qed.
